(** * lseco: a guarded region of memory for secrets

    A shallow embedding of [secure_memory.c] and [lseco_ffi.c] (the POSIX
    branch of the conditional compilation) and the properties of the life
    cycle of a region: create, write, read, query, destroy.

    The C code talks to the platform through [malloc], [posix_memalign],
    [mlock], [madvise], [mprotect], [munlock], [free] and [memcpy].  The
    embedding threads an explicit [world] through every call: the heap of
    live objects, the replies the platform is going to give to the fallible
    calls, and the trace of the calls issued so far.

    - Integers of type [size_t] are [Z] with the wrap-around written out.
    - A pointer is an [option]: [None] is [NULL].
    - A call that does not return is the [None] outcome of the monad: what C
      leaves undefined (dereferencing a null or released pointer, copying
      outside an object, dividing by zero), and the fault by which the
      platform kills a process that touches pages it may not access.
    - A block records the protection last granted by [mprotect].  The code
      never tests it; the platform does, at every load and store. *)

From Stdlib Require Import ZArith Lia List.
From Stdlib.Strings Require Import Byte.
From stdpp Require Import base option list gmap strings.

Local Open Scope Z_scope.

(** ** [size_t] arithmetic (LP64: 64 bits, wrapping) *)

Module SizeT.

Definition bits : Z := 64.
Definition modulus : Z := 2 ^ bits.
Definition max : Z := modulus - 1.

Definition wrap (z : Z) : Z := z mod modulus.
Definition add (a b : Z) : Z := wrap (a + b).
Definition sub (a b : Z) : Z := wrap (a - b).
Definition mul (a b : Z) : Z := wrap (a * b).
Definition div (a b : Z) : Z := a / b.

End SizeT.

(** ** Error codes ([secure_memory.h], mirrored by [lseco_ffi.h]) *)

Definition SECURE_SUCCESS : Z := 0.
Definition SECURE_ERR_NULL_PTR : Z := -1.
Definition SECURE_ERR_ALLOC_FAILED : Z := -2.
Definition SECURE_ERR_LOCK_FAILED : Z := -3.
Definition SECURE_ERR_PROTECT_FAILED : Z := -4.
Definition SECURE_ERR_INVALID_SIZE : Z := -5.

Definition LSECO_SUCCESS : Z := 0.
Definition LSECO_ERR_NULL_PTR : Z := -1.
Definition LSECO_ERR_ALLOC_FAILED : Z := -2.
Definition LSECO_ERR_LOCK_FAILED : Z := -3.
Definition LSECO_ERR_PROTECT_FAILED : Z := -4.
Definition LSECO_ERR_INVALID_SIZE : Z := -5.

(** ** Objects, heap and world *)

(** A non-null address.  A C pointer is an [option loc]; [None] is [NULL]. *)
Definition loc : Type := positive.

Inductive protection : Type := PROT_NONE | PROT_READ_WRITE.

(** A block obtained from [posix_memalign]: its bytes, the protection last
    granted by [mprotect], and whether [mlock] pins it. *)
Record block : Type := mkBlock {
  blk_bytes : list byte;
  blk_prot : protection;
  blk_pinned : bool
}.

(** [struct secure_memory_t] *)
Record secure_memory_t : Type := mkMem {
  mem_data : option loc;     (* void* data *)
  mem_size : Z;              (* size_t size *)
  mem_page_size : Z          (* size_t page_size *)
}.

Inductive object : Type :=
| OStruct (m : secure_memory_t)
| OBlock (b : block).

(** Calls that reach the platform or touch a block, in program order. *)
Inductive event : Type :=
| EvMalloc (l : loc)
| EvMemalign (l : loc) (alignment sz : Z)
| EvMlock (l : loc) (sz : Z)
| EvMadvise (l : loc) (sz : Z)
| EvMunlock (l : loc) (sz : Z)
| EvMprotect (l : loc) (sz : Z) (p : protection)
| EvCopyIn (l : loc) (n : Z)
| EvCopyOut (l : loc) (n : Z)
| EvZero (l : loc) (n : Z)
| EvFree (l : loc) (o : object).

Inductive reply : Type := Grant | Refuse.

Record world : Type := mkWorld {
  heap : gmap loc object;
  replies : list reply;     (* answers to the coming fallible calls *)
  sc_pagesize : Z;          (* sysconf(_SC_PAGESIZE) *)
  junk : byte;              (* what fresh memory happens to hold *)
  trace : list event
}.

Definition set_heap (h : gmap loc object) (w : world) : world :=
  mkWorld h (replies w) (sc_pagesize w) (junk w) (trace w).
Definition set_replies (rs : list reply) (w : world) : world :=
  mkWorld (heap w) rs (sc_pagesize w) (junk w) (trace w).
Definition add_event (e : event) (w : world) : world :=
  mkWorld (heap w) (replies w) (sc_pagesize w) (junk w) (trace w ++ [e]).

(** ** The monad: state passing, [None] for a call that does not return *)

Definition M (A : Type) : Type := world -> option (A * world).

Definition ret {A} (a : A) : M A := fun w => Some (a, w).
Definition bind {A B} (c : M A) (k : A -> M B) : M B :=
  fun w => match c w with
           | Some (a, w') => k a w'
           | None => None
           end.
Definition undefined {A} : M A := fun _ => None.

(** The platform kills the process (SIGSEGV): nothing after the faulting
    access is run. *)
Definition fault {A} : M A := fun _ => None.

Notation "'let*' x := c 'in' k" := (bind c (fun x => k))
  (at level 10, x pattern, c at level 100, k at level 200).
Notation "c ;; k" := (bind c (fun _ => k))
  (at level 100, k at level 200, right associativity).

Definition log (e : event) : M unit := fun w => Some (tt, add_event e w).

(** The platform's answer to the next fallible call; a platform with no
    scripted answer left grants. *)
Definition next_reply : M reply :=
  fun w => match replies w with
           | [] => Some (Grant, w)
           | r :: rs => Some (r, set_replies rs w)
           end.

(** The address the allocator hands out next: one that is not live. *)
Definition fresh_addr (h : gmap loc object) : loc := fresh (dom h).
Global Arguments fresh_addr : simpl never.

Definition fresh_loc : M loc := fun w => Some (fresh_addr (heap w), w).

Definition put (l : loc) (o : object) : M unit :=
  fun w => Some (tt, set_heap (<[l := o]> (heap w)) w).

Definition drop_obj (l : loc) : M unit :=
  fun w => Some (tt, set_heap (delete l (heap w)) w).

(** [*p] for a struct pointer: undefined on [NULL] and on a released or
    foreign address. *)
Definition load_struct (p : option loc) : M secure_memory_t :=
  fun w => match p with
           | None => None
           | Some l => match heap w !! l with
                       | Some (OStruct m) => Some (m, w)
                       | _ => None
                       end
           end.

Definition load_block (p : option loc) : M (loc * block) :=
  fun w => match p with
           | None => None
           | Some l => match heap w !! l with
                       | Some (OBlock b) => Some ((l, b), w)
                       | _ => None
                       end
           end.

Definition is_null {A} (p : option A) : bool :=
  match p with None => true | Some _ => false end.

(** [mem->field = v] *)
Definition store_struct (p : option loc) (f : secure_memory_t -> secure_memory_t) : M unit :=
  let* m := load_struct p in
  match p with
  | Some l => put l (OStruct (f m))
  | None => undefined
  end.

Definition store_block (l : loc) (b : block) : M unit := put l (OBlock b).

(** ** The platform *)

(** [malloc(sizeof(secure_memory_t))]: [NULL] when refused. *)
Definition malloc_struct : M (option loc) :=
  let* r := next_reply in
  match r with
  | Refuse => ret None
  | Grant =>
      let* l := fresh_loc in
      put l (OStruct (mkMem None 0 0)) ;;
      log (EvMalloc l) ;;
      ret (Some l)
  end.

(** [posix_memalign(&p, alignment, sz)]: the status and, on success, the
    new block.  A block is born readable and writable, not pinned, and
    holds whatever was there; a request for 0 bytes is answered with a block
    of its own that has no bytes. *)
Definition posix_memalign (alignment sz : Z) : M (Z * option loc) :=
  let* r := next_reply in
  match r with
  | Refuse => ret (12, None)
  | Grant =>
      let* l := fresh_loc in
      let* j := (fun w => Some (junk w, w)) in
      store_block l (mkBlock (replicate (Z.to_nat sz) j) PROT_READ_WRITE false) ;;
      log (EvMemalign l alignment sz) ;;
      ret (0, Some l)
  end.

(** [free(p)]: nothing on [NULL]; releasing what is not live is undefined. *)
Definition free (p : option loc) : M unit :=
  match p with
  | None => ret tt
  | Some l =>
      let* o := (fun w => match heap w !! l with
                          | Some o => Some (o, w)
                          | None => None
                          end) in
      log (EvFree l o) ;;
      drop_obj l
  end.

Definition mlock (addr : option loc) (sz : Z) : M Z :=
  let* (l, b) := load_block addr in
  log (EvMlock l sz) ;;
  let* r := next_reply in
  match r with
  | Refuse => ret (-1)
  | Grant => store_block l (mkBlock (blk_bytes b) (blk_prot b) true) ;; ret 0
  end.

Definition madvise_dontdump (addr : option loc) (sz : Z) : M unit :=
  let* (l, _) := load_block addr in
  log (EvMadvise l sz).

Definition munlock (addr : option loc) (sz : Z) : M unit :=
  let* (l, b) := load_block addr in
  log (EvMunlock l sz) ;;
  store_block l (mkBlock (blk_bytes b) (blk_prot b) false).

(** [mprotect(addr, sz, prot)]: a granted change is recorded in the block,
    a refused one leaves the record as it was. *)
Definition mprotect (addr : option loc) (sz : Z) (prot : protection) : M Z :=
  let* (l, b) := load_block addr in
  log (EvMprotect l sz prot) ;;
  let* r := next_reply in
  match r with
  | Refuse => ret (-1)
  | Grant => store_block l (mkBlock (blk_bytes b) prot (blk_pinned b)) ;; ret 0
  end.

Definition sysconf_pagesize : M Z := fun w => Some (sc_pagesize w, w).

(** Whether the platform lets the program load or store [n] bytes of a
    block: always on readable and writable pages; on pages without access
    only when no byte is touched. *)
Definition may_access (b : block) (n : Z) : bool :=
  match blk_prot b with
  | PROT_READ_WRITE => true
  | PROT_NONE => n =? 0
  end.

(** [memcpy(dst, src, n)] into a block from the caller's bytes. *)
Definition memcpy_in (dst : option loc) (src : list byte) (n : Z) : M unit :=
  let* (l, b) := load_block dst in
  if (n <=? Z.of_nat (length src)) && (n <=? Z.of_nat (length (blk_bytes b)))
  then
    if may_access b n then
      log (EvCopyIn l n) ;;
      store_block l (mkBlock (take (Z.to_nat n) src ++ drop (Z.to_nat n) (blk_bytes b))
                             (blk_prot b) (blk_pinned b))
    else fault
  else undefined.

(** [memcpy(dst, src, n)] from a block into the caller's buffer; the
    buffer after the copy. *)
Definition memcpy_out (dst : list byte) (src : option loc) (n : Z) : M (list byte) :=
  let* (l, b) := load_block src in
  if (n <=? Z.of_nat (length dst)) && (n <=? Z.of_nat (length (blk_bytes b)))
  then
    if may_access b n then
      log (EvCopyOut l n) ;;
      ret (take (Z.to_nat n) (blk_bytes b) ++ drop (Z.to_nat n) dst)
    else fault
  else undefined.

(** ** [secure_memory.c] *)

Definition get_page_size : M Z :=
  let* p := sysconf_pagesize in ret (SizeT.wrap p).

(** The loop of [secure_zero]: [while (size--) *p++ = 0;].  The other
    branches ([memset_s], [explicit_bzero]) are library calls that write
    the same [size] zero bytes.  The first store to pages without access
    faults, so on such pages nothing is zeroed unless [size] is 0. *)
Fixpoint zero_loop (n : nat) (p : nat) (bs : list byte) : list byte :=
  match n with
  | O => bs
  | S n' => zero_loop n' (S p) (<[p := x00]> bs)
  end.

Definition secure_zero (ptr : option loc) (sz : Z) : M unit :=
  let* (l, b) := load_block ptr in
  if sz <=? Z.of_nat (length (blk_bytes b))
  then
    if may_access b sz then
      log (EvZero l sz) ;;
      store_block l (mkBlock (zero_loop (Z.to_nat sz) 0 (blk_bytes b))
                             (blk_prot b) (blk_pinned b))
    else fault
  else undefined.

Definition set_memory_protection (addr : option loc) (sz : Z) (allow_access : bool) : M Z :=
  let prot := if allow_access then PROT_READ_WRITE else PROT_NONE in
  let* r := mprotect addr sz prot in
  if negb (r =? 0) then ret SECURE_ERR_PROTECT_FAILED
  else ret SECURE_SUCCESS.

Definition lock_memory (addr : option loc) (sz : Z) : M Z :=
  let* r := mlock addr sz in
  if negb (r =? 0) then ret SECURE_ERR_LOCK_FAILED
  else
    madvise_dontdump addr sz ;;
    ret SECURE_SUCCESS.

Definition unlock_memory (addr : option loc) (sz : Z) : M unit :=
  munlock addr sz.

(** [((size + page_size - 1) / page_size) * page_size] in [size_t]. *)
Definition aligned_size_of (size page_size : Z) : Z :=
  SizeT.mul (SizeT.div (SizeT.sub (SizeT.add size page_size) 1) page_size) page_size.

(** The same, as the code evaluates it: dividing by zero is undefined. *)
Definition round_up_to_page (size page_size : Z) : M Z :=
  if page_size =? 0 then undefined else ret (aligned_size_of size page_size).

(** [handle] is the [secure_memory_t**] argument: [None] for [NULL],
    [Some v] for a pointer to a variable that holds [v].  The result pairs
    the status with that variable after the call. *)
Definition secure_memory_create (handle : option (option loc)) (size : Z)
  : M (Z * option (option loc)) :=
  if is_null handle then ret (SECURE_ERR_NULL_PTR, handle)
  else if size =? 0 then ret (SECURE_ERR_INVALID_SIZE, handle)
  else
    let* mem := malloc_struct in
    if is_null mem then ret (SECURE_ERR_ALLOC_FAILED, handle)
    else
      store_struct mem (fun m => mkMem (mem_data m) size (mem_page_size m)) ;;
      let* ps := get_page_size in
      store_struct mem (fun m => mkMem (mem_data m) (mem_size m) ps) ;;
      let* m := load_struct mem in
      let* aligned_size := round_up_to_page size (mem_page_size m) in
      let* (rc, p) := posix_memalign (mem_page_size m) aligned_size in
      if negb (rc =? 0) then
        free mem ;;
        ret (SECURE_ERR_ALLOC_FAILED, handle)
      else
        store_struct mem (fun m => mkMem p (mem_size m) (mem_page_size m)) ;;
        let* m := load_struct mem in
        let* lock_result := lock_memory (mem_data m) aligned_size in
        if negb (lock_result =? SECURE_SUCCESS) then
          free (mem_data m) ;;
          free mem ;;
          ret (lock_result, handle)
        else
          let* protect_result := set_memory_protection (mem_data m) aligned_size false in
          if negb (protect_result =? SECURE_SUCCESS) then
            unlock_memory (mem_data m) aligned_size ;;
            free (mem_data m) ;;
            free mem ;;
            ret (protect_result, handle)
          else
            ret (SECURE_SUCCESS, Some mem).

(** [length == 0 || length > handle->size], left to right. *)
Definition bad_length (handle : option loc) (length : Z) : M bool :=
  if length =? 0 then ret true
  else let* m := load_struct handle in ret (mem_size m <? length).

Definition secure_memory_write (handle : option loc) (data : option (list byte))
  (length : Z) : M Z :=
  match handle, data with
  | Some _, Some src =>
      let* bad := bad_length handle length in
      if bad then ret SECURE_ERR_INVALID_SIZE
      else
        let* m := load_struct handle in
        let* aligned_size := round_up_to_page (mem_size m) (mem_page_size m) in
        let* result := set_memory_protection (mem_data m) aligned_size true in
        if negb (result =? SECURE_SUCCESS) then ret result
        else
          memcpy_in (mem_data m) src length ;;
          let* result := set_memory_protection (mem_data m) aligned_size false in
          if negb (result =? SECURE_SUCCESS) then ret result
          else ret SECURE_SUCCESS
  | _, _ => ret SECURE_ERR_NULL_PTR
  end.

(** The result pairs the status with the caller's buffer after the call. *)
Definition secure_memory_read (handle : option loc) (buffer : option (list byte))
  (length : Z) : M (Z * option (list byte)) :=
  match handle, buffer with
  | Some _, Some dst =>
      let* bad := bad_length handle length in
      if bad then ret (SECURE_ERR_INVALID_SIZE, buffer)
      else
        let* m := load_struct handle in
        let* aligned_size := round_up_to_page (mem_size m) (mem_page_size m) in
        let* result := set_memory_protection (mem_data m) aligned_size true in
        if negb (result =? SECURE_SUCCESS) then ret (result, buffer)
        else
          let* dst' := memcpy_out dst (mem_data m) length in
          let* result := set_memory_protection (mem_data m) aligned_size false in
          if negb (result =? SECURE_SUCCESS) then ret (result, Some dst')
          else ret (SECURE_SUCCESS, Some dst')
  | _, _ => ret (SECURE_ERR_NULL_PTR, buffer)
  end.

(** [handle] as in [secure_memory_create]; the result is the caller's
    variable after the call. *)
Definition secure_memory_destroy (handle : option (option loc)) : M (option (option loc)) :=
  match handle with
  | None | Some None => ret handle
  | Some mem =>
      let* m := load_struct mem in
      let* aligned_size := round_up_to_page (mem_size m) (mem_page_size m) in
      set_memory_protection (mem_data m) aligned_size true ;;
      secure_zero (mem_data m) aligned_size ;;
      unlock_memory (mem_data m) aligned_size ;;
      free (mem_data m) ;;
      free mem ;;
      ret (Some None)
  end.

Definition secure_memory_get_size (handle : option loc) : M Z :=
  if is_null handle then ret 0
  else let* m := load_struct handle in ret (mem_size m).

(** ** [lseco_ffi.c] *)

Definition lseco_create (size : Z) : M (option loc) :=
  if size =? 0 then ret None
  else
    let* (result, handle) := secure_memory_create (Some None) size in
    if negb (result =? SECURE_SUCCESS) then ret None
    else ret (default None handle).

Definition lseco_store (handle : option loc) (data : option (list byte)) (length : Z) : M Z :=
  if is_null handle then ret LSECO_ERR_NULL_PTR
  else if is_null data then ret LSECO_ERR_NULL_PTR
  else if length =? 0 then ret LSECO_ERR_INVALID_SIZE
  else secure_memory_write handle data length.

Definition lseco_retrieve (handle : option loc) (buffer : option (list byte)) (length : Z)
  : M (Z * option (list byte)) :=
  if is_null handle then ret (LSECO_ERR_NULL_PTR, buffer)
  else if is_null buffer then ret (LSECO_ERR_NULL_PTR, buffer)
  else if length =? 0 then ret (LSECO_ERR_INVALID_SIZE, buffer)
  else secure_memory_read handle buffer length.

Definition lseco_get_size (handle : option loc) : M Z :=
  if is_null handle then ret 0
  else secure_memory_get_size handle.

(** The handle is passed by value: the variable nulled by
    [secure_memory_destroy] is the wrapper's own [mem]. *)
Definition lseco_destroy (handle : option loc) : M unit :=
  if is_null handle then ret tt
  else
    secure_memory_destroy (Some handle) ;;
    ret tt.

(** ** Vocabulary for the statements *)

(** Whether the platform grants the next fallible call. *)
Definition granted (rs : list reply) : bool :=
  match rs with Refuse :: _ => false | _ => true end.

(** [w] after [k] fallible calls that logged [evs] and left the heap [h]. *)
Definition advance (w : world) (k : nat) (evs : list event) (h : gmap loc object) : world :=
  mkWorld h (drop k (replies w)) (sc_pagesize w) (junk w) (trace w ++ evs).

(** The events logged between [w] and a later [w']. *)
Definition new_events (w w' : world) : list event :=
  drop (length (trace w)) (trace w').

Definition reprotected (b : block) (p : protection) : block :=
  mkBlock (blk_bytes b) p (blk_pinned b).

Definition written (src : list byte) (len : Z) (b : block) (p : protection) : block :=
  mkBlock (take (Z.to_nat len) src ++ drop (Z.to_nat len) (blk_bytes b)) p (blk_pinned b).

Definition copied_out (dst : list byte) (len : Z) (b : block) : list byte :=
  take (Z.to_nat len) (blk_bytes b) ++ drop (Z.to_nat len) dst.

Definition zeroed (b : block) (a : Z) (p : protection) : block :=
  mkBlock (zero_loop (Z.to_nat a) 0 (blk_bytes b)) p false.

Definition backing_size (m : secure_memory_t) : Z :=
  aligned_size_of (mem_size m) (mem_page_size m).

Definition write_events (d : loc) (m : secure_memory_t) (len : Z) : list event :=
  [EvMprotect d (backing_size m) PROT_READ_WRITE; EvCopyIn d len;
   EvMprotect d (backing_size m) PROT_NONE].

Definition read_events (d : loc) (m : secure_memory_t) (len : Z) : list event :=
  [EvMprotect d (backing_size m) PROT_READ_WRITE; EvCopyOut d len;
   EvMprotect d (backing_size m) PROT_NONE].

Definition destroy_events (h d : loc) (m : secure_memory_t) (b : block) (ok : bool)
  : list event :=
  [EvMprotect d (backing_size m) PROT_READ_WRITE;
   EvZero d (backing_size m);
   EvMunlock d (backing_size m);
   EvFree d (OBlock (zeroed b (backing_size m)
                       (if ok then PROT_READ_WRITE else blk_prot b)));
   EvFree h (OStruct m)].

(** A live region: the handle [h] points to the struct [m], whose [data]
    points to the block [b] at [d], and the block is as long as the backing
    size the code computes from [m]. *)
Record region (w : world) (h : loc) (m : secure_memory_t) (d : loc) (b : block) : Prop :=
  mkRegion {
    reg_struct : heap w !! h = Some (OStruct m);
    reg_data : mem_data m = Some d;
    reg_block : heap w !! d = Some (OBlock b);
    reg_page : mem_page_size m <> 0;
    reg_backing : Z.of_nat (length (blk_bytes b)) = backing_size m
  }.

(** The fallible steps of [secure_memory_create], in program order; the
    [k]-th consumes the [k]-th coming reply of the platform. *)
Inductive create_step : Type :=
| StepHandleAlloc      (* malloc *)
| StepBackingAlloc     (* posix_memalign *)
| StepPin              (* mlock *)
| StepProtect.         (* mprotect *)

Definition step_index (s : create_step) : nat :=
  match s with
  | StepHandleAlloc => 0
  | StepBackingAlloc => 1
  | StepPin => 2
  | StepProtect => 3
  end.

Definition step_error (s : create_step) : Z :=
  match s with
  | StepHandleAlloc | StepBackingAlloc => SECURE_ERR_ALLOC_FAILED
  | StepPin => SECURE_ERR_LOCK_FAILED
  | StepProtect => SECURE_ERR_PROTECT_FAILED
  end.

(** Step [s] is the first one the platform refuses. *)
Definition fails_at (rs : list reply) (s : create_step) : Prop :=
  rs !! step_index s = Some Refuse /\
  forall j, (j < step_index s)%nat -> rs !! j <> Some Refuse.

(** The platform grants the next [n] fallible calls. *)
Definition grants (n : nat) (rs : list reply) : Prop :=
  forall j, (j < n)%nat -> rs !! j <> Some Refuse.

(** ** Concrete worlds for the examples *)

(** A process with an empty heap, 4096-byte pages and the given replies. *)
Definition boot (rs : list reply) : world := mkWorld ∅ rs 4096 xaa [].

Definition after {A} (c : M A) (w : world) : world :=
  match c w with Some (_, w') => w' | None => w end.

Definition result {A} (c : M A) (w : world) : option A :=
  match c w with Some (a, _) => Some a | None => None end.

(** [lseco_create(256)] on a platform that grants everything. *)
Definition world256 : world := after (lseco_create 256) (boot []).
Definition handle256 : option loc := default None (result (lseco_create 256) (boot [])).

(** The payload of [test_binary_data]. *)
Definition binary_data : list byte :=
  [x00; x01; x02; x03; x04; x05; x06; x07; x08; x09; x0a; x0b; x0c; x0d; x0e; x0f].

(** ** The rest of [lseco_ffi.c] *)

Definition LSECO_VERSION : string := "1.0.0".

(** The [switch] of [lseco_error_string]; its labels are distinct. *)
Definition lseco_error_string (error_code : Z) : string :=
  if error_code =? LSECO_SUCCESS then "Success"
  else if error_code =? LSECO_ERR_NULL_PTR then "NULL pointer provided"
  else if error_code =? LSECO_ERR_ALLOC_FAILED then "Memory allocation failed"
  else if error_code =? LSECO_ERR_LOCK_FAILED then "Failed to lock memory in RAM"
  else if error_code =? LSECO_ERR_PROTECT_FAILED then "Failed to set memory protection"
  else if error_code =? LSECO_ERR_INVALID_SIZE then "Invalid size parameter"
  else "Unknown error".

Definition lseco_version : string := LSECO_VERSION.

(** ** Sequences of calls on one handle

    What a caller does with a handle between [lseco_create] and
    [lseco_destroy]: any number of stores, retrieves and size queries, with
    buffers of its own. *)

Inductive request : Type :=
| Store (src : list byte) (len : Z)        (* lseco_store(handle, src, len) *)
| Retrieve (dst : list byte) (len : Z)     (* lseco_retrieve(handle, dst, len) *)
| GetSize.                                 (* lseco_get_size(handle) *)

(** The status of one call (0 for the size query, which has none). *)
Definition run_request (handle : option loc) (r : request) : M Z :=
  match r with
  | Store src len => lseco_store handle (Some src) len
  | Retrieve dst len =>
      let* (code, _) := lseco_retrieve handle (Some dst) len in ret code
  | GetSize => lseco_get_size handle ;; ret 0
  end.

Fixpoint run_requests (handle : option loc) (rs : list request) : M (list Z) :=
  match rs with
  | [] => ret []
  | r :: rs' =>
      let* code := run_request handle r in
      let* codes := run_requests handle rs' in
      ret (code :: codes)
  end.

Definition is_store (r : request) : bool :=
  match r with Store _ _ => true | _ => false end.

(** A region at rest: live, of capacity [cap], without access and pinned. *)
Definition at_rest (w : world) (h : loc) (cap : Z) : Prop :=
  exists m d b, region w h m d b /\ mem_size m = cap /\
                blk_prot b = PROT_NONE /\ blk_pinned b = true.

(** ** [test_lseco.c]

    The test functions as programs of the same monad.  [assert] aborts the
    process when its condition fails: a test returns [false] there and
    [true] when it reaches its end.  What [printf] writes is not modelled.
    An array declared without initialiser holds arbitrary bytes: it is a
    parameter of the test. *)

(** A string literal as the array C makes of it: its bytes and a NUL. *)
Definition literal (s : string) : list byte :=
  String.list_byte_of_string s ++ [x00].

(** [char a[n] = "..."]: the literal, filled up with zero bytes. *)
Definition char_array (n : nat) (s : string) : list byte :=
  String.list_byte_of_string s
  ++ replicate (n - String.length s) x00.

(** [strlen]: undefined when the array holds no NUL. *)
Fixpoint strlen (s : list byte) : option nat :=
  match s with
  | [] => None
  | c :: s' => if Byte.eqb c x00 then Some O else S <$> strlen s'
  end.

(** [strcmp]: the sign of the first difference, 0 when both strings end
    together; undefined when it runs off an array. *)
Fixpoint strcmp (a b : list byte) : option Z :=
  match a, b with
  | x :: a', y :: b' =>
      if Byte.eqb x y
      then if Byte.eqb x x00 then Some 0 else strcmp a' b'
      else Some (Z.sgn (Z.of_N (Byte.to_N x) - Z.of_N (Byte.to_N y)))
  | _, _ => None
  end.

(** A library result in the monad: [None] is undefined behaviour. *)
Definition lift {A} (o : option A) : M A :=
  fun w => match o with Some a => Some (a, w) | None => None end.

Definition assert (c : bool) (k : M bool) : M bool :=
  if c then k else ret false.

Definition test_version : M bool :=
  let version := lseco_version in
  (* version != NULL: the function returns a string literal *)
  let* n := lift (strlen (literal version)) in
  assert (bool_decide (0 < n)%nat) (ret true).

Definition test_error_strings : M bool :=
  let msg := lseco_error_string LSECO_SUCCESS in
  (* msg != NULL: every case of the switch returns a string literal *)
  let* c := lift (strcmp (literal msg) (literal "Success")) in
  assert (c =? 0) (
  let msg := lseco_error_string LSECO_ERR_NULL_PTR in
  let* n := lift (strlen (literal msg)) in
  assert (bool_decide (0 < n)%nat) (ret true)).

Definition test_create_destroy : M bool :=
  let* handle := lseco_create 0 in
  assert (is_null handle) (
  let* handle := lseco_create 256 in
  assert (negb (is_null handle)) (
  let* size := lseco_get_size handle in
  assert (size =? 256) (
  lseco_destroy handle ;;
  lseco_destroy None ;;
  ret true))).

Definition test_store_retrieve : M bool :=
  let* handle := lseco_create 256 in
  assert (negb (is_null handle)) (
  let* result := lseco_store None (Some (literal "test")) 4 in
  assert (result =? LSECO_ERR_NULL_PTR) (
  let* result := lseco_store handle None 4 in
  assert (result =? LSECO_ERR_NULL_PTR) (
  let* result := lseco_store handle (Some (literal "test")) 0 in
  assert (result =? LSECO_ERR_INVALID_SIZE) (
  let secret := literal "This is a secret password!" in
  let* n := lift (strlen secret) in
  let* result := lseco_store handle (Some secret) (Z.of_nat n + 1) in
  assert (result =? LSECO_SUCCESS) (
  let buffer := replicate 256 x00 in
  let* (result, b) := lseco_retrieve None (Some buffer) 256 in
  let buffer := default buffer b in
  assert (result =? LSECO_ERR_NULL_PTR) (
  let* (result, _) := lseco_retrieve handle None 256 in
  assert (result =? LSECO_ERR_NULL_PTR) (
  let* n := lift (strlen secret) in
  let* (result, b) := lseco_retrieve handle (Some buffer) (Z.of_nat n + 1) in
  let buffer := default buffer b in
  assert (result =? LSECO_SUCCESS) (
  let* c := lift (strcmp buffer secret) in
  assert (c =? 0) (
  lseco_destroy handle ;;
  ret true))))))))).

Definition test_size_limits (buffer : list byte) : M bool :=
  let* handle := lseco_create 16 in
  assert (negb (is_null handle)) (
  let large_data := char_array 32 "This data is too large!" in
  let* result := lseco_store handle (Some large_data) 32 in
  assert (result =? LSECO_ERR_INVALID_SIZE) (
  let* (result, b) := lseco_retrieve handle (Some buffer) 32 in
  let buffer := default buffer b in
  assert (result =? LSECO_ERR_INVALID_SIZE) (
  let* result := lseco_store handle (Some (literal "small")) 6 in
  assert (result =? LSECO_SUCCESS) (
  lseco_destroy handle ;;
  ret true)))).

(** One round of [test_multiple_operations]: store the string with its
    terminator, retrieve as many bytes, compare.  The buffer after the
    round, or [None] when an assertion failed. *)
Definition store_retrieve_compare (handle : option loc) (data buffer : list byte)
  : M (option (list byte)) :=
  let* n := lift (strlen data) in
  let* result := lseco_store handle (Some data) (Z.of_nat n + 1) in
  if negb (result =? LSECO_SUCCESS) then ret None else
  let* n := lift (strlen data) in
  let* (result, b) := lseco_retrieve handle (Some buffer) (Z.of_nat n + 1) in
  let buffer := default buffer b in
  if negb (result =? LSECO_SUCCESS) then ret None else
  let* c := lift (strcmp buffer data) in
  if negb (c =? 0) then ret None else ret (Some buffer).

Definition test_multiple_operations (buffer : list byte) : M bool :=
  let* handle := lseco_create 1024 in
  assert (negb (is_null handle)) (
  let data1 := literal "First secret" in
  let data2 := literal "Second secret is longer" in
  let data3 := literal "Third" in
  let* r := store_retrieve_compare handle data1 buffer in
  match r with None => ret false | Some buffer =>
  let* r := store_retrieve_compare handle data2 buffer in
  match r with None => ret false | Some buffer =>
  let* r := store_retrieve_compare handle data3 buffer in
  match r with None => ret false | Some buffer =>
  lseco_destroy handle ;;
  ret true
  end end end).

Definition test_binary_data (buffer : list byte) : M bool :=
  let* handle := lseco_create 256 in
  assert (negb (is_null handle)) (
  let* result := lseco_store handle (Some binary_data) 16 in
  assert (result =? LSECO_SUCCESS) (
  let* (result, b) := lseco_retrieve handle (Some buffer) 16 in
  let buffer := default buffer b in
  assert (result =? LSECO_SUCCESS) (
  (* for (i = 0; i < sizeof(binary_data); i++) assert(buffer[i] == binary_data[i]) *)
  assert (forallb (fun i => match buffer !! i, binary_data !! i with
                            | Some x, Some y => Byte.eqb x y
                            | _, _ => false
                            end)
                  (seq 0 16)) (
  lseco_destroy handle ;;
  ret true)))).

(** [main]: the tests in order, each only when the ones before passed. *)
Definition and_then (t k : M bool) : M bool :=
  let* ok := t in if ok then k else ret false.

Definition main (buffer32 buffer1024 buffer16 : list byte) : M bool :=
  and_then test_version (
  and_then test_error_strings (
  and_then test_create_destroy (
  and_then test_store_retrieve (
  and_then (test_size_limits buffer32) (
  and_then (test_multiple_operations buffer1024) (
  test_binary_data buffer16)))))).

(** A platform that refuses nothing, with a page size that leaves room for
    rounding up capacities up to [n]. *)
Definition calm (n : Z) (w : world) : Prop :=
  replies w = [] /\ 0 < sc_pagesize w /\ n + sc_pagesize w - 1 < SizeT.modulus.

(** The heap of [w] is the heap of [w0] and one region at [h], of capacity
    [cap], whose block holds [bs]. *)
Definition owned (w0 w : world) (h : loc) (cap : Z) (bs : list byte) : Prop :=
  exists m d b,
    region w h m d b /\ mem_size m = cap /\ cap <= backing_size m /\
    blk_bytes b = bs /\
    heap w0 !! h = None /\ heap w0 !! d = None /\
    forall l, l <> h -> l <> d -> heap w !! l = heap w0 !! l.

(** A test passes on every calm platform and leaves the heap as it found
    it. *)
Definition passes (n : Z) (t : M bool) : Prop :=
  forall w, calm n w ->
    exists w', t w = Some (true, w') /\ calm n w' /\ heap w' = heap w.

(** What a logged call may be, for the region of struct [m] at [h] with its
    block at [d]: the calls that work on pages cover the whole backing
    size, a copy is not empty and stays within the capacity. *)
Definition event_fits (h d : loc) (m : secure_memory_t) (e : event) : Prop :=
  match e with
  | EvMalloc l => l = h
  | EvMemalign l alignment sz =>
      l = d /\ alignment = mem_page_size m /\ sz = backing_size m
  | EvMlock l sz | EvMadvise l sz | EvMunlock l sz | EvZero l sz
  | EvMprotect l sz _ => l = d /\ sz = backing_size m
  | EvCopyIn l n | EvCopyOut l n => l = d /\ n <> 0 /\ n <= mem_size m
  | EvFree l _ => l = d \/ l = h
  end.

(** ** Tactics *)

(** Unfold the monad and the platform calls. *)
Ltac unfold_m :=
  unfold secure_memory_write, secure_memory_read, secure_memory_destroy,
    secure_memory_create, bad_length, round_up_to_page,
    set_memory_protection, lock_memory, unlock_memory, secure_zero,
    memcpy_in, memcpy_out, mprotect, mlock, munlock, madvise_dontdump, free,
    malloc_struct, posix_memalign, get_page_size, sysconf_pagesize,
    store_struct, store_block, load_struct, load_block, next_reply, fresh_loc,
    put, drop_obj, log, bind, ret, undefined, fault, advance,
    set_heap, set_replies, add_event in *.

Ltac split_replies :=
  match goal with
  | |- context [match ?rs with [] => _ | _ :: _ => _ end] =>
      is_var rs; destruct rs as [|[] rs]
  end.

(** Two outcomes that differ by the order of heap updates at [l1] and [l2]
    and by the bracketing of the trace. *)
Ltac same_world l1 l2 :=
  do 3 f_equal; try reflexivity;
  first
    [ rewrite <- ?app_assoc, ?app_nil_r; reflexivity
    | apply map_eq; intros i;
      (destruct (decide (i = l1)) as [->|]; [|destruct (decide (i = l2)) as [->|]]);
      repeat (rewrite ?lookup_delete_eq, ?lookup_insert_eq;
              rewrite ?lookup_delete_ne, ?lookup_insert_ne by done);
      congruence ].

(** * Proofs *)

(** ** Rounding up to the page size *)

Section Rounding.
Variables size p : Z.
Hypothesis Hp : 0 < p.
Hypothesis Hsize : 0 <= size.

Lemma aligned_size_of_exact :
  size + p - 1 < SizeT.modulus ->
  aligned_size_of size p = (size + p - 1) / p * p.
Proof.
  intros Hfit.
  unfold aligned_size_of, SizeT.mul, SizeT.div, SizeT.sub, SizeT.add, SizeT.wrap.
  rewrite Zminus_mod_idemp_l.
  rewrite (Z.mod_small (size + p - 1)) by lia.
  apply Z.mod_small.
  pose proof (Z.mul_div_le (size + p - 1) p Hp).
  assert (0 <= (size + p - 1) / p) by (apply Z.div_pos; lia).
  nia.
Qed.

Lemma round_up_multiple : (p | (size + p - 1) / p * p).
Proof. apply Z.divide_factor_r. Qed.

Lemma round_up_covers : size <= (size + p - 1) / p * p.
Proof.
  pose proof (Z.div_mod (size + p - 1) p ltac:(lia)).
  pose proof (Z.mod_pos_bound (size + p - 1) p Hp). lia.
Qed.

Lemma round_up_least k : size <= k * p -> (size + p - 1) / p * p <= k * p.
Proof.
  intros Hk.
  apply Z.mul_le_mono_nonneg_r; [lia|].
  apply Z.lt_succ_r. apply Z.div_lt_upper_bound; lia.
Qed.

(** Where the sum still fits in [size_t], the code computes the smallest
    multiple of the page size that covers [size]. *)
Lemma aligned_size_of_smallest_multiple :
  size + p - 1 < SizeT.modulus ->
  (p | aligned_size_of size p) /\
  size <= aligned_size_of size p /\
  forall k, size <= k * p -> aligned_size_of size p <= k * p.
Proof.
  intros Hfit. rewrite aligned_size_of_exact by done.
  split; [apply round_up_multiple|].
  split; [apply round_up_covers|apply round_up_least].
Qed.

(** Past that point the sum wraps and nothing is left. *)
Lemma aligned_size_of_wraps :
  p < SizeT.modulus -> size < SizeT.modulus ->
  SizeT.modulus <= size + p - 1 ->
  aligned_size_of size p = 0.
Proof.
  intros Hpm Hsm Hover.
  unfold aligned_size_of, SizeT.mul, SizeT.div, SizeT.sub, SizeT.add, SizeT.wrap.
  rewrite Zminus_mod_idemp_l.
  replace ((size + p - 1) mod SizeT.modulus) with (size + p - 1 - SizeT.modulus).
  - rewrite Z.div_small by lia. reflexivity.
  - apply Z.mod_unique with (q := 1); lia.
Qed.
End Rounding.

Lemma aligned_size_of_nonneg size p : 0 <= aligned_size_of size p.
Proof.
  unfold aligned_size_of, SizeT.mul, SizeT.wrap.
  apply Z.mod_pos_bound. reflexivity.
Qed.

(** ** The zeroing loop *)

Lemma zero_loop_spec n : forall p bs,
  (p + n <= length bs)%nat ->
  zero_loop n p bs = take p bs ++ replicate n x00 ++ drop (p + n) bs.
Proof.
  induction n as [|n IH]; intros p bs Hlen; cbn [zero_loop].
  - rewrite Nat.add_0_r. cbn. symmetry. apply take_drop.
  - rewrite IH by (rewrite length_insert; lia).
    rewrite (take_S_r _ p x00) by (apply list_lookup_insert_eq; lia).
    rewrite take_insert_ge by lia.
    rewrite drop_insert_lt by lia.
    rewrite <- app_assoc. cbn.
    replace (p + S n)%nat with (S (p + n)) by lia. reflexivity.
Qed.

Lemma zero_loop_all bs :
  zero_loop (length bs) 0 bs = replicate (length bs) x00.
Proof.
  rewrite zero_loop_spec by lia. cbn.
  rewrite drop_all. apply app_nil_r.
Qed.

(** ** Replies *)

Lemma granted_lookup rs k :
  granted (drop k rs) = true <-> rs !! k <> Some Refuse.
Proof.
  rewrite <- (Nat.add_0_r k) at 2. rewrite <- lookup_drop.
  destruct (drop k rs) as [|[] ?]; cbn; split; congruence.
Qed.

Lemma refused_lookup rs k :
  granted (drop k rs) = false <-> rs !! k = Some Refuse.
Proof.
  rewrite <- (Nat.add_0_r k) at 2. rewrite <- lookup_drop.
  destruct (drop k rs) as [|[] ?]; cbn; split; congruence.
Qed.

(** ** Worlds *)

Lemma new_events_advance w k evs h : new_events w (advance w k evs h) = evs.
Proof. unfold new_events, advance. cbn. apply drop_app_length. Qed.

Lemma new_events_refl w : new_events w w = [].
Proof. unfold new_events. apply drop_all. Qed.

Lemma fresh_addr_free (h : gmap loc object) : h !! fresh_addr h = None.
Proof. unfold fresh_addr. apply not_elem_of_dom, is_fresh. Qed.

Lemma trace3 (x : list event) e1 e2 e3 :
  ((x ++ [e1]) ++ [e2]) ++ [e3] = x ++ [e1; e2; e3].
Proof. rewrite <- !app_assoc. reflexivity. Qed.

(** ** Each operation as one equation

    Symbolic execution of the monadic code: the outcome of every operation
    as a function of the heap and of the platform's coming replies. *)

Lemma write_spec h src len w :
  secure_memory_write (Some h) (Some src) len w =
  if len =? 0 then Some (SECURE_ERR_INVALID_SIZE, w) else
  match heap w !! h with
  | Some (OStruct m) =>
    if mem_size m <? len then Some (SECURE_ERR_INVALID_SIZE, w) else
    if mem_page_size m =? 0 then None else
    match mem_data m with
    | Some d =>
      match heap w !! d with
      | Some (OBlock b) =>
        if negb (granted (replies w)) then
          Some (SECURE_ERR_PROTECT_FAILED,
                advance w 1 (take 1 (write_events d m len)) (heap w))
        else if negb ((len <=? Z.of_nat (length src))
                      && (len <=? Z.of_nat (length (blk_bytes b)))) then None
        else if negb (granted (drop 1 (replies w))) then
          Some (SECURE_ERR_PROTECT_FAILED,
                advance w 2 (write_events d m len)
                  (<[d := OBlock (written src len b PROT_READ_WRITE)]> (heap w)))
        else
          Some (SECURE_SUCCESS,
                advance w 2 (write_events d m len)
                  (<[d := OBlock (written src len b PROT_NONE)]> (heap w)))
      | _ => None
      end
    | None => None
    end
  | _ => None
  end.
Proof.
  unfold_m. destruct w as [hp rs pg jk tr]. cbn.
  destruct (len =? 0) eqn:Hl0; [reflexivity|]. cbn.
  destruct (hp !! h) as [[m|]|] eqn:Hh; try reflexivity. cbn.
  destruct (mem_size m <? len) eqn:Hsz; [reflexivity|]. cbn. rewrite Hh.
  destruct (mem_page_size m =? 0) eqn:Hpg; [reflexivity|]. cbn.
  destruct (mem_data m) as [d|] eqn:Hd; [|reflexivity].
  destruct (hp !! d) as [[|b]|] eqn:Hb; try reflexivity. cbn.
  unfold written, write_events, backing_size.
  destruct rs as [|[] rs]; cbn; try reflexivity;
    rewrite ?lookup_insert_eq; cbn;
    (destruct ((len <=? Z.of_nat (length src))
               && (len <=? Z.of_nat (length (blk_bytes b)))); cbn;
     [|reflexivity]);
    rewrite ?lookup_insert_eq; cbn;
    try (destruct rs as [|[] rs]; cbn);
    rewrite ?insert_insert_eq, ?trace3; reflexivity.
Qed.

Lemma read_spec h dst len w :
  secure_memory_read (Some h) (Some dst) len w =
  if len =? 0 then Some ((SECURE_ERR_INVALID_SIZE, Some dst), w) else
  match heap w !! h with
  | Some (OStruct m) =>
    if mem_size m <? len then Some ((SECURE_ERR_INVALID_SIZE, Some dst), w) else
    if mem_page_size m =? 0 then None else
    match mem_data m with
    | Some d =>
      match heap w !! d with
      | Some (OBlock b) =>
        if negb (granted (replies w)) then
          Some ((SECURE_ERR_PROTECT_FAILED, Some dst),
                advance w 1 (take 1 (read_events d m len)) (heap w))
        else if negb ((len <=? Z.of_nat (length dst))
                      && (len <=? Z.of_nat (length (blk_bytes b)))) then None
        else if negb (granted (drop 1 (replies w))) then
          Some ((SECURE_ERR_PROTECT_FAILED, Some (copied_out dst len b)),
                advance w 2 (read_events d m len)
                  (<[d := OBlock (reprotected b PROT_READ_WRITE)]> (heap w)))
        else
          Some ((SECURE_SUCCESS, Some (copied_out dst len b)),
                advance w 2 (read_events d m len)
                  (<[d := OBlock (reprotected b PROT_NONE)]> (heap w)))
      | _ => None
      end
    | None => None
    end
  | _ => None
  end.
Proof.
  unfold_m. destruct w as [hp rs pg jk tr]. cbn.
  destruct (len =? 0) eqn:Hl0; [reflexivity|]. cbn.
  destruct (hp !! h) as [[m|]|] eqn:Hh; try reflexivity. cbn.
  destruct (mem_size m <? len) eqn:Hsz; [reflexivity|]. cbn. rewrite Hh.
  destruct (mem_page_size m =? 0) eqn:Hpg; [reflexivity|]. cbn.
  destruct (mem_data m) as [d|] eqn:Hd; [|reflexivity].
  destruct (hp !! d) as [[|b]|] eqn:Hb; try reflexivity. cbn.
  unfold reprotected, copied_out, read_events, backing_size.
  destruct rs as [|[] rs]; cbn; try reflexivity;
    rewrite ?lookup_insert_eq; cbn;
    (destruct ((len <=? Z.of_nat (length dst))
               && (len <=? Z.of_nat (length (blk_bytes b)))); cbn;
     [|reflexivity]);
    rewrite ?lookup_insert_eq; cbn;
    try (destruct rs as [|[] rs]; cbn);
    rewrite ?insert_insert_eq, ?trace3; reflexivity.
Qed.

Lemma destroy_spec h w :
  secure_memory_destroy (Some (Some h)) w =
  match heap w !! h with
  | Some (OStruct m) =>
    if mem_page_size m =? 0 then None else
    match mem_data m with
    | Some d =>
      match heap w !! d with
      | Some (OBlock b) =>
        if backing_size m <=? Z.of_nat (length (blk_bytes b)) then
          if granted (replies w) || may_access b (backing_size m) then
            Some (Some None,
                  advance w 1 (destroy_events h d m b (granted (replies w)))
                          (delete h (delete d (heap w))))
          else None
        else None
      | _ => None
      end
    | None => None
    end
  | _ => None
  end.
Proof.
  unfold_m. destruct w as [hp rs pg jk tr]. cbn.
  destruct (hp !! h) as [[m|]|] eqn:Hh; try reflexivity. cbn.
  destruct (mem_page_size m =? 0) eqn:Hpg; [reflexivity|]. cbn.
  destruct (mem_data m) as [d|] eqn:Hd; [|reflexivity].
  destruct (hp !! d) as [[|b]|] eqn:Hb; try reflexivity. cbn.
  assert (Hne : d <> h) by congruence.
  unfold destroy_events, zeroed, backing_size.
  destruct rs as [|[] rs]; cbn; rewrite ?lookup_insert_eq, ?Hb; cbn;
   (destruct (aligned_size_of (mem_size m) (mem_page_size m)
              <=? Z.of_nat (length (blk_bytes b)));
    [|reflexivity]); cbn;
   try (destruct (may_access b (aligned_size_of (mem_size m) (mem_page_size m)));
        [|reflexivity]); cbn;
   rewrite ?insert_insert_eq, ?lookup_insert_eq; cbn;
   rewrite ?insert_insert_eq, ?lookup_insert_eq; cbn;
   rewrite ?delete_insert_eq, lookup_delete_ne by done; rewrite Hh; cbn;
   rewrite <- !app_assoc; reflexivity.
Qed.

Lemma create_spec slot size w :
  secure_memory_create (Some slot) size w =
  if size =? 0 then Some ((SECURE_ERR_INVALID_SIZE, Some slot), w) else
  let l1 := fresh_addr (heap w) in
  let ps := SizeT.wrap (sc_pagesize w) in
  let a := aligned_size_of size ps in
  let l2 := fresh_addr (<[l1 := OStruct (mkMem None size ps)]> (heap w)) in
  let m := mkMem (Some l2) size ps in
  let b := mkBlock (replicate (Z.to_nat a) (junk w)) PROT_READ_WRITE false in
  if negb (granted (replies w)) then
    Some ((SECURE_ERR_ALLOC_FAILED, Some slot), advance w 1 [] (heap w))
  else if ps =? 0 then None
  else if negb (granted (drop 1 (replies w))) then
    Some ((SECURE_ERR_ALLOC_FAILED, Some slot),
          advance w 2 [EvMalloc l1; EvFree l1 (OStruct (mkMem None size ps))] (heap w))
  else if negb (granted (drop 2 (replies w))) then
    Some ((SECURE_ERR_LOCK_FAILED, Some slot),
          advance w 3 [EvMalloc l1; EvMemalign l2 ps a; EvMlock l2 a;
                       EvFree l2 (OBlock b); EvFree l1 (OStruct m)] (heap w))
  else if negb (granted (drop 3 (replies w))) then
    Some ((SECURE_ERR_PROTECT_FAILED, Some slot),
          advance w 4 [EvMalloc l1; EvMemalign l2 ps a; EvMlock l2 a; EvMadvise l2 a;
                       EvMprotect l2 a PROT_NONE; EvMunlock l2 a;
                       EvFree l2 (OBlock b); EvFree l1 (OStruct m)] (heap w))
  else
    Some ((SECURE_SUCCESS, Some (Some l1)),
          advance w 4 [EvMalloc l1; EvMemalign l2 ps a; EvMlock l2 a; EvMadvise l2 a;
                       EvMprotect l2 a PROT_NONE]
            (<[l2 := OBlock (mkBlock (blk_bytes b) PROT_NONE true)]>
               (<[l1 := OStruct m]> (heap w)))).
Proof.
  unfold_m. destruct w as [hp rs pg jk tr]. cbn.
  destruct (size =? 0) eqn:Hs0; [reflexivity|]. cbn.
  remember (fresh_addr hp) as l1 eqn:El1.
  remember (fresh_addr (<[l1 := OStruct (mkMem None size (SizeT.wrap pg))]> hp))
    as l2 eqn:El2.
  assert (Hl1 : hp !! l1 = None) by (subst l1; apply fresh_addr_free).
  assert (Hl2 : hp !! l2 = None /\ l1 <> l2).
  { apply (lookup_insert_None hp l1 l2 (OStruct (mkMem None size (SizeT.wrap pg)))).
    subst l2. apply fresh_addr_free. }
  destruct Hl2 as [Hl2 Hne].
  split_replies; cbn;
    repeat (rewrite <- ?El1, <- ?El2, ?lookup_insert_eq, ?insert_insert_eq; cbn);
    try (same_world l1 l2);
    (destruct (SizeT.wrap pg =? 0); [reflexivity|]); cbn;
    repeat (try split_replies; cbn;
            repeat (rewrite <- ?El1, <- ?El2, ?lookup_insert_eq, ?insert_insert_eq; cbn);
            repeat (rewrite ?lookup_insert_eq, ?lookup_insert_ne by done; cbn));
    try same_world l1 l2.
  all: rewrite ?lookup_delete_ne, ?lookup_insert_ne, ?lookup_insert_eq by done; cbn.
  all: same_world l1 l2.
Qed.

(** ** What a successful call tells *)

Lemma write_success h src len w w1 :
  secure_memory_write (Some h) (Some src) len w = Some (SECURE_SUCCESS, w1) ->
  exists m d b,
    heap w !! h = Some (OStruct m) /\ mem_data m = Some d /\
    heap w !! d = Some (OBlock b) /\
    len <> 0 /\ len <= mem_size m /\
    len <= Z.of_nat (length src) /\ len <= Z.of_nat (length (blk_bytes b)) /\
    w1 = advance w 2 (write_events d m len)
           (<[d := OBlock (written src len b PROT_NONE)]> (heap w)).
Proof.
  rewrite write_spec. intros H.
  destruct (len =? 0) eqn:Hl0; [discriminate|].
  destruct (heap w !! h) as [[m|]|] eqn:Hh; try discriminate.
  destruct (mem_size m <? len) eqn:Hsz; [discriminate|].
  destruct (mem_page_size m =? 0); [discriminate|].
  destruct (mem_data m) as [d|] eqn:Hd; [|discriminate].
  destruct (heap w !! d) as [[|b]|] eqn:Hblk; try discriminate.
  destruct (granted (replies w)); [|discriminate]. cbn [negb] in H.
  destruct ((len <=? Z.of_nat (length src))
            && (len <=? Z.of_nat (length (blk_bytes b)))) eqn:Hb; [|discriminate].
  cbn [negb] in H.
  destruct (granted (drop 1 (replies w))); [|discriminate].
  injection H as <-.
  apply andb_prop in Hb as [Hb1%Z.leb_le Hb2%Z.leb_le].
  apply Z.eqb_neq in Hl0. apply Z.ltb_ge in Hsz.
  exists m, d, b. split_and!; try done; lia.
Qed.

Lemma read_success h dst len w dst' w1 :
  secure_memory_read (Some h) (Some dst) len w = Some ((SECURE_SUCCESS, dst'), w1) ->
  exists m d b,
    heap w !! h = Some (OStruct m) /\ mem_data m = Some d /\
    heap w !! d = Some (OBlock b) /\
    len <> 0 /\ len <= mem_size m /\
    len <= Z.of_nat (length dst) /\ len <= Z.of_nat (length (blk_bytes b)) /\
    dst' = Some (copied_out dst len b) /\
    w1 = advance w 2 (read_events d m len)
           (<[d := OBlock (reprotected b PROT_NONE)]> (heap w)).
Proof.
  rewrite read_spec. intros H.
  destruct (len =? 0) eqn:Hl0; [discriminate|].
  destruct (heap w !! h) as [[m|]|] eqn:Hh; try discriminate.
  destruct (mem_size m <? len) eqn:Hsz; [discriminate|].
  destruct (mem_page_size m =? 0); [discriminate|].
  destruct (mem_data m) as [d|] eqn:Hd; [|discriminate].
  destruct (heap w !! d) as [[|b]|] eqn:Hblk; try discriminate.
  destruct (granted (replies w)); [|discriminate]. cbn [negb] in H.
  destruct ((len <=? Z.of_nat (length dst))
            && (len <=? Z.of_nat (length (blk_bytes b)))) eqn:Hb; [|discriminate].
  cbn [negb] in H.
  destruct (granted (drop 1 (replies w))); [|discriminate].
  injection H as <- <-.
  apply andb_prop in Hb as [Hb1%Z.leb_le Hb2%Z.leb_le].
  apply Z.eqb_neq in Hl0. apply Z.ltb_ge in Hsz.
  exists m, d, b. split_and!; try done; lia.
Qed.

(** Neither the null checks nor the length check of [secure_memory_write]
    and [secure_memory_read] touch the world. *)
Lemma write_null handle data len w :
  handle = None \/ data = None ->
  secure_memory_write handle data len w = Some (SECURE_ERR_NULL_PTR, w).
Proof. intros [-> | ->]; [|destruct handle]; reflexivity. Qed.

Lemma read_null handle buffer len w :
  handle = None \/ buffer = None ->
  secure_memory_read handle buffer len w = Some ((SECURE_ERR_NULL_PTR, buffer), w).
Proof. intros [-> | ->]; [|destruct handle]; reflexivity. Qed.

Lemma write_zero_length h src w :
  secure_memory_write (Some h) (Some src) 0 w = Some (SECURE_ERR_INVALID_SIZE, w).
Proof. reflexivity. Qed.

Lemma read_zero_length h dst w :
  secure_memory_read (Some h) (Some dst) 0 w
  = Some ((SECURE_ERR_INVALID_SIZE, Some dst), w).
Proof. reflexivity. Qed.

Lemma write_oversized h m src len w :
  heap w !! h = Some (OStruct m) -> mem_size m < len ->
  secure_memory_write (Some h) (Some src) len w = Some (SECURE_ERR_INVALID_SIZE, w).
Proof.
  intros Hh Hlen. rewrite write_spec, Hh.
  destruct (len =? 0); [reflexivity|].
  apply Z.ltb_lt in Hlen. by rewrite Hlen.
Qed.

Lemma read_oversized h m dst len w :
  heap w !! h = Some (OStruct m) -> mem_size m < len ->
  secure_memory_read (Some h) (Some dst) len w
  = Some ((SECURE_ERR_INVALID_SIZE, Some dst), w).
Proof.
  intros Hh Hlen. rewrite read_spec, Hh.
  destruct (len =? 0); [reflexivity|].
  apply Z.ltb_lt in Hlen. by rewrite Hlen.
Qed.

(** The wrappers of [lseco_ffi.c] repeat checks that the core makes. *)
Lemma lseco_store_is_write handle data len w :
  lseco_store handle data len w = secure_memory_write handle data len w.
Proof.
  unfold lseco_store.
  destruct handle as [h|]; [|reflexivity].
  destruct data as [src|]; [|reflexivity]. cbn [is_null].
  destruct (len =? 0) eqn:H0; [|reflexivity].
  apply Z.eqb_eq in H0 as ->. reflexivity.
Qed.

Lemma lseco_retrieve_is_read handle buffer len w :
  lseco_retrieve handle buffer len w = secure_memory_read handle buffer len w.
Proof.
  unfold lseco_retrieve.
  destruct handle as [h|]; [|reflexivity].
  destruct buffer as [dst|]; [|reflexivity]. cbn [is_null].
  destruct (len =? 0) eqn:H0; [|reflexivity].
  apply Z.eqb_eq in H0 as ->. reflexivity.
Qed.

(** ** Store and Retrieve *)

(** C1.  Round trip: when [secure_memory_write] of the [length b] bytes of
    [b] succeeds and the [secure_memory_read] of as many bytes that follows
    succeeds, the first [length b] bytes of the caller's buffer are [b],
    the rest of the buffer is untouched, and a buffer of exactly that length
    equals [b].  The copy is driven by the length alone: [b] is any list of
    bytes, zero bytes included.  Success of the write already entails that
    the handle is live and that [0 < length b <= capacity]. *)
Theorem store_retrieve_round_trip (w w1 w2 : world) (h : loc) (b buf buf' : list byte) :
  secure_memory_write (Some h) (Some b) (Z.of_nat (length b)) w
    = Some (SECURE_SUCCESS, w1) ->
  secure_memory_read (Some h) (Some buf) (Z.of_nat (length b)) w1
    = Some ((SECURE_SUCCESS, Some buf'), w2) ->
  (exists cap, secure_memory_get_size (Some h) w = Some (cap, w)
               /\ 0 < Z.of_nat (length b) <= cap) /\
  take (length b) buf' = b /\
  drop (length b) buf' = drop (length b) buf /\
  (length buf = length b -> buf' = b).
Proof.
  intros Hw Hr.
  apply write_success in Hw as (m & d & blk & Hh & Hd & Hblk & Hn0 & Hcap & _ & Hfit & ->).
  apply read_success in Hr as (m' & d' & blk' & Hh' & Hd' & Hblk' & _ & _ & Hbuf & _ & Hout & _).
  assert (Hne : d <> h) by congruence.
  cbn [advance heap] in Hh', Hblk'.
  rewrite lookup_insert_ne in Hh' by done.
  assert (m' = m) as -> by congruence.
  assert (d' = d) as -> by congruence.
  rewrite lookup_insert_eq in Hblk'. injection Hblk' as <-.
  injection Hout as ->.
  unfold copied_out, written. cbn [blk_bytes]. rewrite Nat2Z.id.
  assert (Htake : take (length b) (take (length b) b ++ drop (length b) (blk_bytes blk)) = b).
  { rewrite take_app_le by (rewrite length_take; lia).
    rewrite take_take, Nat.min_id. apply firstn_all. }
  split.
  { exists (mem_size m). unfold secure_memory_get_size, load_struct, bind, ret.
    cbn [is_null]. rewrite Hh. split; [reflexivity|lia]. }
  split.
  { rewrite Htake. rewrite take_app_length'; [done|]. reflexivity. }
  split.
  { rewrite Htake. rewrite drop_app_length'; [done|]. reflexivity. }
  intros Hlen. rewrite Htake, <- Hlen, drop_all. apply app_nil_r.
Qed.

Lemma store_retrieve_round_trip_witness :
  let w1 := after (secure_memory_write handle256 (Some binary_data) 16) world256 in
  let w2 := after (secure_memory_read handle256 (Some (replicate 16 xff)) 16) w1 in
  secure_memory_write (Some 1%positive) (Some binary_data) 16 world256
    = Some (SECURE_SUCCESS, w1) /\
  secure_memory_read (Some 1%positive) (Some (replicate 16 xff)) 16 w1
    = Some ((SECURE_SUCCESS, Some binary_data), w2) /\
  take 16 binary_data = binary_data.
Proof.
  intros w1 w2.
  assert (Hw : secure_memory_write (Some 1%positive) (Some binary_data)
                 (Z.of_nat (length binary_data)) world256 = Some (SECURE_SUCCESS, w1))
    by (vm_compute; reflexivity).
  assert (Hr : secure_memory_read (Some 1%positive) (Some (replicate 16 xff))
                 (Z.of_nat (length binary_data)) w1
               = Some ((SECURE_SUCCESS, Some binary_data), w2))
    by (vm_compute; reflexivity).
  split; [exact Hw|]. split; [exact Hr|].
  exact (proj1 (proj2 (store_retrieve_round_trip _ _ _ _ _ _ _ Hw Hr))).
Defined.

(** C9.  Frame of a successful [secure_memory_write] of the [length src]
    bytes of [src]: the call logs one copy of that many bytes to the base of
    the region's block; afterwards the block starts with [src], every byte
    at an offset from [length src] on is what it was before (so in
    particular those up to [capacity - 1]), the block has kept its length,
    and no other object of the heap has changed. *)
Theorem store_frame (w w1 : world) (h : loc) (src : list byte) :
  secure_memory_write (Some h) (Some src) (Z.of_nat (length src)) w
    = Some (SECURE_SUCCESS, w1) ->
  exists m d b b1,
    heap w !! h = Some (OStruct m) /\ mem_data m = Some d /\
    heap w !! d = Some (OBlock b) /\ heap w1 !! d = Some (OBlock b1) /\
    0 < Z.of_nat (length src) <= mem_size m /\
    new_events w w1 = write_events d m (Z.of_nat (length src)) /\
    take (length src) (blk_bytes b1) = src /\
    (forall i, (length src <= i)%nat -> blk_bytes b1 !! i = blk_bytes b !! i) /\
    length (blk_bytes b1) = length (blk_bytes b) /\
    (forall l, l <> d -> heap w1 !! l = heap w !! l).
Proof.
  intros Hw.
  apply write_success in Hw as (m & d & b & Hh & Hd & Hblk & Hn0 & Hcap & _ & Hfit & ->).
  exists m, d, b, (written src (Z.of_nat (length src)) b PROT_NONE).
  unfold written. cbn [blk_bytes advance heap]. rewrite Nat2Z.id.
  split_and!; try done.
  - apply lookup_insert_eq.
  - lia.
  - apply new_events_advance.
  - rewrite take_app_le by (rewrite length_take; lia).
    rewrite take_take, Nat.min_id. apply firstn_all.
  - intros i Hi.
    rewrite lookup_app_r by (rewrite length_take; lia).
    rewrite length_take, Nat.min_l by lia.
    rewrite lookup_drop. f_equal. lia.
  - rewrite length_app, length_take, length_drop. lia.
  - intros l Hl. by apply lookup_insert_ne.
Qed.

Lemma store_frame_witness :
  let w1 := after (secure_memory_write handle256 (Some binary_data) 16) world256 in
  secure_memory_write (Some 1%positive) (Some binary_data) 16 world256
    = Some (SECURE_SUCCESS, w1) /\
  exists m d b b1,
    heap world256 !! 1%positive = Some (OStruct m) /\ mem_data m = Some d /\
    heap world256 !! d = Some (OBlock b) /\ heap w1 !! d = Some (OBlock b1) /\
    0 < 16 <= mem_size m /\
    new_events world256 w1 = write_events d m 16 /\
    take 16 (blk_bytes b1) = binary_data /\
    (forall i, (16 <= i)%nat -> blk_bytes b1 !! i = blk_bytes b !! i) /\
    length (blk_bytes b1) = length (blk_bytes b) /\
    (forall l, l <> d -> heap w1 !! l = heap world256 !! l).
Proof.
  intros w1.
  assert (Hw : secure_memory_write (Some 1%positive) (Some binary_data)
                 (Z.of_nat (length binary_data)) world256 = Some (SECURE_SUCCESS, w1))
    by (vm_compute; reflexivity).
  split; [exact Hw|].
  exact (store_frame _ _ _ _ Hw).
Defined.

(** C2 fails as stated: a zero length is answered with
    [SECURE_ERR_INVALID_SIZE] (-5), not with [SECURE_ERR_NULL_PTR] (-1). *)
Lemma zero_length_is_invalid_size :
  secure_memory_write handle256 (Some binary_data) 0 world256
    = Some (SECURE_ERR_INVALID_SIZE, world256) /\
  secure_memory_read handle256 (Some binary_data) 0 world256
    = Some ((SECURE_ERR_INVALID_SIZE, Some binary_data), world256) /\
  SECURE_ERR_INVALID_SIZE = -5 /\
  SECURE_ERR_INVALID_SIZE <> SECURE_ERR_NULL_PTR.
Proof.
  split; [vm_compute; reflexivity|].
  split; [vm_compute; reflexivity|].
  split; [reflexivity|discriminate].
Qed.

(** C2, amended.  [secure_memory_write] and [secure_memory_read] answer
    [SECURE_ERR_NULL_PTR] (-1) when the handle or the data/buffer pointer is
    [NULL], whatever the length; with both present they answer
    [SECURE_ERR_INVALID_SIZE] (-5) when the length is zero or exceeds the
    capacity.  In each case the world is returned as it was (no platform
    call, no copy, nothing logged) and the caller's buffer is untouched. *)
Theorem store_retrieve_argument_errors (w : world) (handle : option loc)
    (data buffer : option (list byte)) (len : Z) :
  (handle = None \/ data = None ->
     secure_memory_write handle data len w = Some (SECURE_ERR_NULL_PTR, w)) /\
  (handle = None \/ buffer = None ->
     secure_memory_read handle buffer len w = Some ((SECURE_ERR_NULL_PTR, buffer), w)) /\
  (forall h m, handle = Some h -> heap w !! h = Some (OStruct m) ->
     len = 0 \/ mem_size m < len ->
     (is_Some data ->
        secure_memory_write handle data len w = Some (SECURE_ERR_INVALID_SIZE, w)) /\
     (is_Some buffer ->
        secure_memory_read handle buffer len w
        = Some ((SECURE_ERR_INVALID_SIZE, buffer), w))) /\
  SECURE_ERR_NULL_PTR = -1 /\ SECURE_ERR_INVALID_SIZE = -5.
Proof.
  split; [apply write_null|]. split; [apply read_null|].
  split; [|done].
  intros h m -> Hh Hlen. split.
  - intros [src ->]. destruct Hlen as [-> | Hlen];
      [apply write_zero_length | by eapply write_oversized].
  - intros [dst ->]. destruct Hlen as [-> | Hlen];
      [apply read_zero_length | by eapply read_oversized].
Qed.

Lemma store_retrieve_argument_errors_witness :
  secure_memory_write None (Some binary_data) 16 world256
    = Some (SECURE_ERR_NULL_PTR, world256) /\
  secure_memory_read handle256 None 16 world256
    = Some ((SECURE_ERR_NULL_PTR, None), world256) /\
  secure_memory_write handle256 (Some binary_data) 257 world256
    = Some (SECURE_ERR_INVALID_SIZE, world256) /\
  secure_memory_read handle256 (Some binary_data) 0 world256
    = Some ((SECURE_ERR_INVALID_SIZE, Some binary_data), world256).
Proof.
  assert (Hh : heap world256 !! 1%positive
               = Some (OStruct (mkMem (Some 2%positive) 256 4096)))
    by (vm_compute; reflexivity).
  split.
  { apply (store_retrieve_argument_errors world256 None (Some binary_data) None 16).
    left. reflexivity. }
  split.
  { apply (store_retrieve_argument_errors world256 handle256 None None 16).
    right. reflexivity. }
  split.
  { refine (proj1 (proj1 (proj2 (proj2
      (store_retrieve_argument_errors world256 (Some 1%positive)
         (Some binary_data) None 257))) _ _ eq_refl Hh _) _).
    - right. cbn. lia.
    - eexists. reflexivity. }
  refine (proj2 (proj1 (proj2 (proj2
      (store_retrieve_argument_errors world256 (Some 1%positive)
         None (Some binary_data) 0))) _ _ eq_refl Hh _) _).
  - left. reflexivity.
  - eexists. reflexivity.
Defined.

(** C3.  A length above the capacity of a live region, with a data/buffer
    pointer present, is answered with [SECURE_ERR_INVALID_SIZE] by
    [secure_memory_write] and [secure_memory_read] (and by the wrappers
    [lseco_store] and [lseco_retrieve]); the world comes back as it was, so
    no platform call was issued and the region's bytes and protection are
    what they were, and the caller's buffer is untouched. *)
Theorem oversized_request_rejected (w : world) (h : loc) (m : secure_memory_t)
    (src dst : list byte) (len : Z) :
  heap w !! h = Some (OStruct m) ->
  mem_size m < len ->
  secure_memory_write (Some h) (Some src) len w = Some (SECURE_ERR_INVALID_SIZE, w) /\
  secure_memory_read (Some h) (Some dst) len w
    = Some ((SECURE_ERR_INVALID_SIZE, Some dst), w) /\
  lseco_store (Some h) (Some src) len w = Some (LSECO_ERR_INVALID_SIZE, w) /\
  lseco_retrieve (Some h) (Some dst) len w
    = Some ((LSECO_ERR_INVALID_SIZE, Some dst), w).
Proof.
  intros Hh Hlen.
  rewrite lseco_store_is_write, lseco_retrieve_is_read.
  rewrite (write_oversized h m src len w Hh Hlen).
  rewrite (read_oversized h m dst len w Hh Hlen).
  done.
Qed.

Lemma oversized_request_rejected_witness :
  heap world256 !! 1%positive = Some (OStruct (mkMem (Some 2%positive) 256 4096)) /\
  256 < 257 /\
  secure_memory_write (Some 1%positive) (Some (replicate 300 x41)) 257 world256
    = Some (SECURE_ERR_INVALID_SIZE, world256) /\
  secure_memory_read (Some 1%positive) (Some (replicate 300 x00)) 257 world256
    = Some ((SECURE_ERR_INVALID_SIZE, Some (replicate 300 x00)), world256).
Proof.
  assert (Hh : heap world256 !! 1%positive
               = Some (OStruct (mkMem (Some 2%positive) 256 4096)))
    by (vm_compute; reflexivity).
  assert (Hlt : mem_size (mkMem (Some 2%positive) 256 4096) < 257) by (cbn; lia).
  split; [exact Hh|]. split; [lia|].
  pose proof (oversized_request_rejected world256 1%positive _
                (replicate 300 x41) (replicate 300 x00) 257 Hh Hlt) as (H1 & H2 & _).
  split; [exact H1 | exact H2].
Defined.

(** ** Create *)

(** A failed [secure_memory_create] leaves the heap and the caller's
    variable as they were, and every block it released was unpinned. *)
Lemma create_failure slot size w code slot' w' :
  secure_memory_create (Some slot) size w = Some ((code, slot'), w') ->
  code <> SECURE_SUCCESS ->
  slot' = Some slot /\ heap w' = heap w /\
  (forall l b, EvFree l (OBlock b) ∈ new_events w w' -> blk_pinned b = false) /\
  secure_memory_create (Some None) size w = Some ((code, Some None), w').
Proof.
  rewrite !create_spec. cbv zeta. intros H Hcode.
  destruct (size =? 0).
  { injection H as <- <- <-. rewrite new_events_refl. split_and!; try done.
    intros l b Hin. by apply elem_of_nil in Hin. }
  repeat match type of H with
         | (if ?c then _ else _) = _ => destruct c
         end;
    try discriminate; injection H as <- <- <-; try done;
    rewrite new_events_advance; split_and!; try done;
    intros l b Hin;
    repeat (apply elem_of_cons in Hin as [Hin | Hin]; [by simplify_eq|]);
    by apply elem_of_nil in Hin.
Qed.

(** When [s] is the first step the platform refuses, the error of that step
    comes back and nothing is left behind. *)
Lemma create_fails_at slot size w s :
  size <> 0 -> SizeT.wrap (sc_pagesize w) <> 0 ->
  fails_at (replies w) s ->
  exists w', secure_memory_create (Some slot) size w
             = Some ((step_error s, Some slot), w')
             /\ heap w' = heap w.
Proof.
  intros Hsize Hpage [Hat Hbefore].
  rewrite create_spec. cbv zeta.
  apply Z.eqb_neq in Hsize, Hpage. rewrite Hsize, Hpage.
  assert (Hg : forall j, (j < step_index s)%nat -> granted (drop j (replies w)) = true)
    by (intros j Hj; apply granted_lookup; auto).
  apply refused_lookup in Hat.
  destruct s; cbn [step_index step_error] in *.
  - rewrite drop_0 in Hat. rewrite Hat. cbn. eauto.
  - pose proof (Hg 0%nat ltac:(lia)) as H0. rewrite drop_0 in H0.
    rewrite H0, Hat. cbn. eauto.
  - pose proof (Hg 0%nat ltac:(lia)) as H0. rewrite drop_0 in H0.
    rewrite H0, (Hg 1%nat), Hat by lia. cbn. eauto.
  - pose proof (Hg 0%nat ltac:(lia)) as H0. rewrite drop_0 in H0.
    rewrite H0, (Hg 1%nat), (Hg 2%nat), Hat by lia. cbn. eauto.
Qed.

(** A successful [secure_memory_create] hands out a live region of the
    requested capacity, pinned and without access. *)
Lemma create_success slot size w slot' w' :
  secure_memory_create (Some slot) size w = Some ((SECURE_SUCCESS, slot'), w') ->
  exists h m d b,
    slot' = Some (Some h) /\ region w' h m d b /\
    mem_size m = size /\ mem_page_size m = SizeT.wrap (sc_pagesize w) /\
    blk_prot b = PROT_NONE /\ blk_pinned b = true /\
    heap w !! h = None /\ heap w !! d = None.
Proof.
  rewrite create_spec. cbv zeta. intros H.
  destruct (size =? 0); [discriminate|].
  destruct (negb (granted (replies w))); [discriminate|].
  destruct (SizeT.wrap (sc_pagesize w) =? 0) eqn:Hpage; [discriminate|].
  repeat match type of H with
         | (if ?c then _ else _) = _ => destruct c
         end; try discriminate.
  injection H as <- <-.
  set (l1 := fresh_addr (heap w)).
  set (m0 := OStruct (mkMem None size (SizeT.wrap (sc_pagesize w)))).
  set (l2 := fresh_addr (<[l1 := m0]> (heap w))).
  assert (Hl1 : heap w !! l1 = None) by apply fresh_addr_free.
  assert (Hl2 : heap w !! l2 = None /\ l1 <> l2)
    by (apply (lookup_insert_None (heap w) l1 l2 m0), fresh_addr_free).
  destruct Hl2 as [Hl2 Hne].
  exists l1, (mkMem (Some l2) size (SizeT.wrap (sc_pagesize w))), l2,
    (mkBlock (replicate (Z.to_nat (aligned_size_of size (SizeT.wrap (sc_pagesize w))))
                (junk w)) PROT_NONE true).
  split; [reflexivity|].
  split; [|by split_and!].
  constructor; cbn [advance heap mem_data mem_page_size mem_size blk_bytes].
  - rewrite lookup_insert_ne by done. apply lookup_insert_eq.
  - reflexivity.
  - apply lookup_insert_eq.
  - by apply Z.eqb_neq.
  - unfold backing_size. cbn [mem_size mem_page_size].
    rewrite length_replicate. apply Z2Nat.id, aligned_size_of_nonneg.
Qed.

Lemma create_granted slot size w :
  size <> 0 -> SizeT.wrap (sc_pagesize w) <> 0 ->
  grants 4 (replies w) ->
  exists h w', secure_memory_create (Some slot) size w
               = Some ((SECURE_SUCCESS, Some (Some h)), w').
Proof.
  intros Hsize Hpage Hg.
  rewrite create_spec. cbv zeta.
  apply Z.eqb_neq in Hsize, Hpage. rewrite Hsize, Hpage.
  assert (Hk : forall j, (j < 4)%nat -> granted (drop j (replies w)) = true)
    by (intros j Hj; apply granted_lookup; auto).
  pose proof (Hk 0%nat ltac:(lia)) as H0. rewrite drop_0 in H0.
  rewrite H0, (Hk 1%nat), (Hk 2%nat), (Hk 3%nat) by lia. cbn. eauto.
Qed.

Lemma get_size_live h m w :
  heap w !! h = Some (OStruct m) ->
  secure_memory_get_size (Some h) w = Some (mem_size m, w).
Proof.
  intros Hh. unfold secure_memory_get_size, load_struct, bind, ret.
  cbn [is_null]. by rewrite Hh.
Qed.

Lemma lseco_create_spec size w :
  lseco_create size w =
  if size =? 0 then Some (None, w) else
  match secure_memory_create (Some None) size w with
  | Some ((code, slot'), w') =>
      Some (if negb (code =? SECURE_SUCCESS) then None else default None slot', w')
  | None => None
  end.
Proof.
  unfold lseco_create. destruct (size =? 0); [reflexivity|].
  unfold bind, ret.
  destruct (secure_memory_create (Some None) size w) as [[[code slot'] w']|];
    [|reflexivity].
  by destruct (negb (code =? SECURE_SUCCESS)).
Qed.

(** C4.  [secure_memory_create] with size 0 answers
    [SECURE_ERR_INVALID_SIZE] and changes nothing.  For every size: when a
    step (handle allocation, backing allocation, pinning, protection) is the
    first to be refused, the error of that step is returned; and whenever
    the call does not return [SECURE_SUCCESS], the heap is what it was
    before the call (every allocation has been released), every block
    released had been unpinned, the caller's variable is not written, and
    [lseco_create] returns [NULL]. *)
Theorem create_failure_unwinds (w : world) (slot : option loc) (size : Z) :
  secure_memory_create (Some slot) 0 w
    = Some ((SECURE_ERR_INVALID_SIZE, Some slot), w) /\
  lseco_create 0 w = Some (None, w) /\
  (forall s, size <> 0 -> SizeT.wrap (sc_pagesize w) <> 0 ->
     fails_at (replies w) s ->
     exists w', secure_memory_create (Some slot) size w
                = Some ((step_error s, Some slot), w')) /\
  (forall code slot' w',
     secure_memory_create (Some slot) size w = Some ((code, slot'), w') ->
     code <> SECURE_SUCCESS ->
     slot' = Some slot /\ heap w' = heap w /\
     (forall l b, EvFree l (OBlock b) ∈ new_events w w' -> blk_pinned b = false) /\
     lseco_create size w = Some (None, w')).
Proof.
  split; [reflexivity|]. split; [reflexivity|]. split.
  - intros s Hsize Hpage Hs.
    destruct (create_fails_at slot size w s Hsize Hpage Hs) as (w' & Hc & _). eauto.
  - intros code slot' w' Hc Hcode.
    destruct (create_failure _ _ _ _ _ _ Hc Hcode) as (Hslot & Hheap & Hpin & Hnone).
    split_and!; try done.
    rewrite lseco_create_spec, Hnone.
    destruct (size =? 0) eqn:Hs0.
    + rewrite create_spec, Hs0 in Hc. by injection Hc as _ _ ->.
    + apply Z.eqb_neq in Hcode. by rewrite Hcode.
Qed.

Lemma create_failure_unwinds_witness :
  let w := boot [Grant; Grant; Grant; Refuse] in
  let w' := after (secure_memory_create (Some None) 256) w in
  secure_memory_create (Some None) 256 w
    = Some ((SECURE_ERR_PROTECT_FAILED, Some None), w') /\
  SECURE_ERR_PROTECT_FAILED <> SECURE_SUCCESS /\
  heap w' = heap w /\
  lseco_create 256 w = Some (None, w').
Proof.
  intros w w'.
  assert (Hc : secure_memory_create (Some None) 256 w
               = Some ((SECURE_ERR_PROTECT_FAILED, Some None), w'))
    by (vm_compute; reflexivity).
  assert (Hne : SECURE_ERR_PROTECT_FAILED <> SECURE_SUCCESS) by discriminate.
  split; [exact Hc|]. split; [exact Hne|].
  destruct (proj2 (proj2 (proj2 (create_failure_unwinds w None 256)))
              _ _ _ Hc Hne) as (_ & Hheap & _ & Hffi).
  split; [exact Hheap | exact Hffi].
Defined.

(** C5 does not hold of the code for every capacity: the sum
    [size + page_size - 1] is taken in [size_t] and wraps.  At capacity
    [SIZE_MAX] with 4096-byte pages the backing size computed is 0, which
    is not a multiple of the page size that covers the capacity; on a
    platform that grants everything [secure_memory_create] still succeeds,
    with capacity [SIZE_MAX] over an empty block. *)
Theorem backing_size_wraps_at_size_max :
  let w' := after (secure_memory_create (Some None) SizeT.max) (boot []) in
  aligned_size_of SizeT.max 4096 = 0 /\
  ~ SizeT.max <= aligned_size_of SizeT.max 4096 /\
  result (secure_memory_create (Some None) SizeT.max) (boot [])
    = Some (SECURE_SUCCESS, Some (Some 1%positive)) /\
  heap w' !! 1%positive = Some (OStruct (mkMem (Some 2%positive) SizeT.max 4096)) /\
  heap w' !! 2%positive = Some (OBlock (mkBlock [] PROT_NONE true)) /\
  result (secure_memory_get_size (Some 1%positive)) w' = Some SizeT.max.
Proof.
  split; [reflexivity|].
  split; [intros Hle; vm_compute in Hle; by apply Hle|].
  repeat split; vm_compute; reflexivity.
Qed.

(** The part of C5 that holds: where [size + page_size - 1] fits in
    [size_t], the backing size is the smallest multiple of the page size
    that covers the capacity. *)
Lemma backing_size_when_representable (m : secure_memory_t) :
  0 < mem_size m -> 0 < mem_page_size m ->
  mem_size m + mem_page_size m - 1 < SizeT.modulus ->
  (mem_page_size m | backing_size m) /\
  mem_size m <= backing_size m /\
  forall k, mem_size m <= k * mem_page_size m -> backing_size m <= k * mem_page_size m.
Proof.
  intros Hs Hp Hfit. apply aligned_size_of_smallest_multiple; lia.
Qed.

(** Capacity and page size are fixed at creation: no outcome of a write or
    a read changes the struct, and every [mprotect] they issue is over the
    backing size. *)
Lemma write_keeps_struct h m src len w code w' :
  heap w !! h = Some (OStruct m) ->
  secure_memory_write (Some h) (Some src) len w = Some (code, w') ->
  heap w' !! h = Some (OStruct m) /\
  forall l sz p, EvMprotect l sz p ∈ new_events w w' ->
                 mem_data m = Some l /\ sz = backing_size m.
Proof.
  intros Hh. rewrite write_spec, Hh. intros H.
  assert (Hnil : forall l sz p, EvMprotect l sz p ∈ new_events w w ->
                   mem_data m = Some l /\ sz = backing_size m)
    by (intros l sz p Hin; rewrite new_events_refl in Hin; by apply elem_of_nil in Hin).
  destruct (len =? 0); [by injection H as <- <-|].
  destruct (mem_size m <? len); [by injection H as <- <-|].
  destruct (mem_page_size m =? 0); [discriminate|].
  destruct (mem_data m) as [d|] eqn:Hd; [|discriminate].
  destruct (heap w !! d) as [[|b]|] eqn:Hb; try discriminate.
  assert (Hne : d <> h) by congruence.
  repeat match type of H with
         | (if ?c then _ else _) = _ => destruct c
         end; try discriminate; injection H as <- <-;
    rewrite new_events_advance; cbn [advance heap];
    rewrite ?lookup_insert_ne by done; (split; [done|]);
    intros l sz p Hin; cbn in Hin;
    repeat (apply elem_of_cons in Hin as [Hin | Hin]; [by simplify_eq|]);
    by apply elem_of_nil in Hin.
Qed.

Lemma read_keeps_struct h m dst len w code dst' w' :
  heap w !! h = Some (OStruct m) ->
  secure_memory_read (Some h) (Some dst) len w = Some ((code, dst'), w') ->
  heap w' !! h = Some (OStruct m) /\
  forall l sz p, EvMprotect l sz p ∈ new_events w w' ->
                 mem_data m = Some l /\ sz = backing_size m.
Proof.
  intros Hh. rewrite read_spec, Hh. intros H.
  assert (Hnil : forall l sz p, EvMprotect l sz p ∈ new_events w w ->
                   mem_data m = Some l /\ sz = backing_size m)
    by (intros l sz p Hin; rewrite new_events_refl in Hin; by apply elem_of_nil in Hin).
  destruct (len =? 0); [by injection H as <- <- <-|].
  destruct (mem_size m <? len); [by injection H as <- <- <-|].
  destruct (mem_page_size m =? 0); [discriminate|].
  destruct (mem_data m) as [d|] eqn:Hd; [|discriminate].
  destruct (heap w !! d) as [[|b]|] eqn:Hb; try discriminate.
  assert (Hne : d <> h) by congruence.
  repeat match type of H with
         | (if ?c then _ else _) = _ => destruct c
         end; try discriminate; injection H as <- <- <-;
    rewrite new_events_advance; cbn [advance heap];
    rewrite ?lookup_insert_ne by done; (split; [done|]);
    intros l sz p Hin; cbn in Hin;
    repeat (apply elem_of_cons in Hin as [Hin | Hin]; [by simplify_eq|]);
    by apply elem_of_nil in Hin.
Qed.

(** ** Progress and preservation on a live region *)

Lemma grants_two rs :
  grants 2 rs -> granted rs = true /\ granted (drop 1 rs) = true.
Proof.
  intros Hg. split.
  - rewrite <- (drop_0 rs). apply granted_lookup, Hg. lia.
  - apply granted_lookup, Hg. lia.
Qed.

(** On a live region whose block covers the capacity, a write within the
    capacity succeeds when the platform grants both protection changes. *)
Lemma write_granted h m d b src len w :
  region w h m d b ->
  mem_size m <= backing_size m ->
  0 < len <= mem_size m ->
  len <= Z.of_nat (length src) ->
  grants 2 (replies w) ->
  secure_memory_write (Some h) (Some src) len w
  = Some (SECURE_SUCCESS,
          advance w 2 (write_events d m len)
            (<[d := OBlock (written src len b PROT_NONE)]> (heap w))).
Proof.
  intros [Hh Hd Hb Hpage Hlen] Hcover Hrange Hsrc [Hg0 Hg1]%grants_two.
  rewrite write_spec, Hh, Hd, Hb, Hg0, Hg1.
  apply Z.eqb_neq in Hpage. rewrite Hpage.
  rewrite (proj2 (Z.eqb_neq len 0)) by lia.
  rewrite (proj2 (Z.ltb_ge (mem_size m) len)) by lia.
  rewrite (proj2 (Z.leb_le len (Z.of_nat (length src)))) by lia.
  rewrite (proj2 (Z.leb_le len (Z.of_nat (length (blk_bytes b))))) by lia.
  reflexivity.
Qed.

Lemma read_granted h m d b dst len w :
  region w h m d b ->
  mem_size m <= backing_size m ->
  0 < len <= mem_size m ->
  len <= Z.of_nat (length dst) ->
  grants 2 (replies w) ->
  secure_memory_read (Some h) (Some dst) len w
  = Some ((SECURE_SUCCESS, Some (copied_out dst len b)),
          advance w 2 (read_events d m len)
            (<[d := OBlock (reprotected b PROT_NONE)]> (heap w))).
Proof.
  intros [Hh Hd Hb Hpage Hlen] Hcover Hrange Hdst [Hg0 Hg1]%grants_two.
  rewrite read_spec, Hh, Hd, Hb, Hg0, Hg1.
  apply Z.eqb_neq in Hpage. rewrite Hpage.
  rewrite (proj2 (Z.eqb_neq len 0)) by lia.
  rewrite (proj2 (Z.ltb_ge (mem_size m) len)) by lia.
  rewrite (proj2 (Z.leb_le len (Z.of_nat (length dst)))) by lia.
  rewrite (proj2 (Z.leb_le len (Z.of_nat (length (blk_bytes b))))) by lia.
  reflexivity.
Qed.

Lemma written_length src len b p :
  len <= Z.of_nat (length src) ->
  len <= Z.of_nat (length (blk_bytes b)) ->
  length (blk_bytes (written src len b p)) = length (blk_bytes b).
Proof.
  intros Hsrc Hb. unfold written. cbn [blk_bytes].
  rewrite length_app, length_take, length_drop. lia.
Qed.

(** Whatever its outcome, a write leaves the region live, with the same
    struct and a block of the same length. *)
Lemma write_preserves_region h m d b src len w code w' :
  region w h m d b ->
  secure_memory_write (Some h) (Some src) len w = Some (code, w') ->
  exists b', region w' h m d b' /\ blk_pinned b' = blk_pinned b.
Proof.
  intros [Hh Hd Hb Hpage Hlen]. rewrite write_spec, Hh, Hd, Hb. intros H.
  assert (Hne : d <> h) by congruence.
  destruct (len =? 0) eqn:Hl0; [injection H as <- <-; by exists b|].
  destruct (mem_size m <? len); [injection H as <- <-; by exists b|].
  destruct (mem_page_size m =? 0); [discriminate|].
  destruct (negb (granted (replies w))); [injection H as <- <-; by exists b|].
  destruct ((len <=? Z.of_nat (length src))
            && (len <=? Z.of_nat (length (blk_bytes b)))) eqn:Hfit;
    cbn [negb] in H; [|discriminate].
  apply andb_prop in Hfit as [Hfit1%Z.leb_le Hfit2%Z.leb_le].
  destruct (negb (granted (drop 1 (replies w)))); injection H as <- <-;
    [exists (written src len b PROT_READ_WRITE) | exists (written src len b PROT_NONE)];
    (split; [|reflexivity]); constructor; cbn [advance heap];
    [ by rewrite lookup_insert_ne by done | done | apply lookup_insert_eq | done
    | rewrite written_length by lia; done
    | by rewrite lookup_insert_ne by done | done | apply lookup_insert_eq | done
    | rewrite written_length by lia; done ].
Qed.

Lemma read_preserves_region h m d b dst len w code dst' w' :
  region w h m d b ->
  secure_memory_read (Some h) (Some dst) len w = Some ((code, dst'), w') ->
  exists b', region w' h m d b' /\ blk_bytes b' = blk_bytes b
             /\ blk_pinned b' = blk_pinned b.
Proof.
  intros [Hh Hd Hb Hpage Hlen]. rewrite read_spec, Hh, Hd, Hb. intros H.
  assert (Hne : d <> h) by congruence.
  destruct (len =? 0) eqn:Hl0; [injection H as <- <- <-; by exists b|].
  destruct (mem_size m <? len); [injection H as <- <- <-; by exists b|].
  destruct (mem_page_size m =? 0); [discriminate|].
  destruct (negb (granted (replies w))); [injection H as <- <- <-; by exists b|].
  destruct (negb ((len <=? Z.of_nat (length dst))
            && (len <=? Z.of_nat (length (blk_bytes b))))); [discriminate|].
  destruct (negb (granted (drop 1 (replies w)))); injection H as <- <- <-;
    [exists (reprotected b PROT_READ_WRITE) | exists (reprotected b PROT_NONE)];
    (split; [|split; reflexivity]); constructor; cbn [advance heap];
    rewrite ?lookup_insert_ne by done; try done;
    apply lookup_insert_eq.
Qed.

(** The whole cycle on a platform that grants: on a region just created
    with a capacity that the rounding can represent, storing [b] (not empty,
    within the capacity) and retrieving as many bytes both succeed and bring
    [b] back at the head of the buffer. *)
Lemma round_trip_on_created_region slot cap w0 w1 h (b buf : list byte) :
  secure_memory_create (Some slot) cap w0 = Some ((SECURE_SUCCESS, Some (Some h)), w1) ->
  0 < sc_pagesize w0 < SizeT.modulus ->
  cap + sc_pagesize w0 - 1 < SizeT.modulus ->
  0 < Z.of_nat (length b) <= cap ->
  (length b <= length buf)%nat ->
  grants 4 (replies w1) ->
  exists w2 w3,
    secure_memory_write (Some h) (Some b) (Z.of_nat (length b)) w1
      = Some (SECURE_SUCCESS, w2) /\
    secure_memory_read (Some h) (Some buf) (Z.of_nat (length b)) w2
      = Some ((SECURE_SUCCESS, Some (b ++ drop (length b) buf)), w3).
Proof.
  intros Hc Hps Hfit Hlen Hbuf Hg.
  apply create_success in Hc as (h' & m & d & blk & [= <-] & Hreg & Hsize & Hpg & _).
  unfold SizeT.wrap in Hpg. rewrite Z.mod_small in Hpg by lia.
  assert (Hcover : mem_size m <= backing_size m).
  { apply backing_size_when_representable; lia. }
  assert (Hg2 : grants 2 (replies w1)) by (intros j Hj; apply Hg; lia).
  pose proof (write_granted h m d blk b (Z.of_nat (length b)) w1
                Hreg Hcover ltac:(lia) ltac:(lia) Hg2) as Hw.
  destruct (write_preserves_region _ _ _ _ _ _ _ _ _ Hreg Hw) as (blk' & Hreg' & _).
  eexists _, _. split; [exact Hw|].
  assert (Hblk' : blk' = written b (Z.of_nat (length b)) blk PROT_NONE).
  { destruct Hreg' as [_ _ Hb' _ _]. cbn [advance heap] in Hb'.
    rewrite lookup_insert_eq in Hb'. congruence. }
  subst blk'.
  assert (Hg2' : grants 2 (replies (advance w1 2 (write_events d m (Z.of_nat (length b)))
                    (<[d := OBlock (written b (Z.of_nat (length b)) blk PROT_NONE)]> (heap w1))))).
  { intros j Hj. cbn [advance replies]. rewrite lookup_drop. apply Hg. lia. }
  rewrite (read_granted h m d _ buf (Z.of_nat (length b)) _
             Hreg' Hcover ltac:(lia) ltac:(lia) Hg2').
  do 3 f_equal. unfold copied_out, written. cbn [blk_bytes]. rewrite Nat2Z.id.
  f_equal. destruct Hreg as [_ _ _ _ Hl].
  rewrite take_app_le by (rewrite length_take; lia).
  rewrite take_take, Nat.min_id. by rewrite firstn_all.
Qed.

(** ** Destroy *)

Lemma destroy_region h m d b w :
  region w h m d b ->
  (granted (replies w) || may_access b (backing_size m)) = true ->
  secure_memory_destroy (Some (Some h)) w
  = Some (Some None,
          advance w 1 (destroy_events h d m b (granted (replies w)))
            (delete h (delete d (heap w)))).
Proof.
  intros [Hh Hd Hb Hpage Hlen] Hacc.
  rewrite destroy_spec, Hh, Hd, Hb.
  apply Z.eqb_neq in Hpage. rewrite Hpage.
  rewrite Hlen, Z.leb_refl, Hacc. reflexivity.
Qed.

(** Without access and without a grant, the first store of the zeroing
    faults. *)
Lemma destroy_faults h m d b w :
  region w h m d b ->
  (granted (replies w) || may_access b (backing_size m)) = false ->
  secure_memory_destroy (Some (Some h)) w = None.
Proof.
  intros [Hh Hd Hb Hpage Hlen] Hacc.
  rewrite destroy_spec, Hh, Hd, Hb.
  apply Z.eqb_neq in Hpage. rewrite Hpage.
  rewrite Hlen, Z.leb_refl, Hacc. reflexivity.
Qed.

(** A destroy that returns had access to the block and went through every
    step. *)
Lemma destroy_returns h m d b w slot' w' :
  region w h m d b ->
  secure_memory_destroy (Some (Some h)) w = Some (slot', w') ->
  (granted (replies w) || may_access b (backing_size m)) = true /\
  slot' = Some None /\
  w' = advance w 1 (destroy_events h d m b (granted (replies w)))
         (delete h (delete d (heap w))).
Proof.
  intros Hreg Hdes.
  destruct (granted (replies w) || may_access b (backing_size m)) eqn:Hacc.
  - rewrite (destroy_region _ _ _ _ _ Hreg Hacc) in Hdes.
    injection Hdes as <- <-. done.
  - by rewrite (destroy_faults _ _ _ _ _ Hreg Hacc) in Hdes.
Qed.

Lemma zeroed_region h m d b w p :
  region w h m d b ->
  zeroed b (backing_size m) p
  = mkBlock (replicate (Z.to_nat (backing_size m)) x00) p false.
Proof.
  intros [_ _ _ _ Hlen]. unfold zeroed.
  rewrite <- Hlen, Nat2Z.id. by rewrite zero_loop_all.
Qed.

(** With access to the block, granted now or left from before,
    [secure_memory_destroy] runs to the end: it asks for read-write access
    over the backing size, writes zero over every byte of the backing size,
    unpins, releases the block (which at that moment holds only zero bytes
    and is not pinned), releases the struct, and nulls the caller's
    variable.  Afterwards neither address is live. *)
Lemma destroy_with_access (w : world) (h d : loc) (m : secure_memory_t) (b : block) :
  region w h m d b ->
  (granted (replies w) || may_access b (backing_size m)) = true ->
  exists w',
    secure_memory_destroy (Some (Some h)) w = Some (Some None, w') /\
    new_events w w' =
      [EvMprotect d (backing_size m) PROT_READ_WRITE;
       EvZero d (backing_size m);
       EvMunlock d (backing_size m);
       EvFree d (OBlock (mkBlock (replicate (Z.to_nat (backing_size m)) x00)
                           (if granted (replies w) then PROT_READ_WRITE else blk_prot b)
                           false));
       EvFree h (OStruct m)] /\
    heap w' = delete h (delete d (heap w)) /\
    heap w' !! h = None /\ heap w' !! d = None.
Proof.
  intros Hreg Hacc. eexists. split; [by apply destroy_region|].
  rewrite new_events_advance. unfold destroy_events.
  rewrite (zeroed_region h m d b w) by done.
  cbn [advance heap]. split_and!; try done.
  - apply lookup_delete_eq.
  - destruct (decide (h = d)) as [->|Hne]; [apply lookup_delete_eq|].
    rewrite lookup_delete_ne by done. apply lookup_delete_eq.
Qed.

(** C6.  [secure_memory_destroy] does not run to the end on every live
    region.  Take a region at rest (its pages without access, its backing
    size not 0) and a platform that refuses the request for access.  The
    request is issued over the backing size and answered with an error,
    which the code drops; the heap is as it was, so the region is still
    whole, pinned and without access.  The first store of [secure_zero]
    then faults and the call does not return: no byte is zeroed, nothing is
    unpinned or released, and the caller's variable keeps the handle. *)
Theorem destroy_stops_at_refused_grant (w : world) (h d : loc) (m : secure_memory_t)
    (b : block) :
  region w h m d b ->
  blk_prot b = PROT_NONE ->
  backing_size m <> 0 ->
  granted (replies w) = false ->
  let w1 := advance w 1 [EvMprotect d (backing_size m) PROT_READ_WRITE] (heap w) in
  set_memory_protection (mem_data m) (backing_size m) true w
    = Some (SECURE_ERR_PROTECT_FAILED, w1) /\
  region w1 h m d b /\
  secure_zero (mem_data m) (backing_size m) w1 = None /\
  secure_memory_destroy (Some (Some h)) w = None.
Proof.
  intros Hreg Hprot Hsz Hrefused w1.
  assert (Hacc : may_access b (backing_size m) = false).
  { unfold may_access. rewrite Hprot. by apply Z.eqb_neq. }
  assert (Hreg1 : region w1 h m d b) by (destruct Hreg; by constructor).
  split_and!; [| exact Hreg1 | |].
  - destruct Hreg as [_ Hd Hb _ _]. rewrite Hd.
    unfold_m. destruct w as [hp rs pg jk tr]. cbn in *. rewrite Hb. cbn.
    destruct rs as [|[] rs]; try discriminate. reflexivity.
  - destruct Hreg1 as [_ Hd Hb _ Hlen]. rewrite Hd.
    unfold secure_zero, load_block, bind. rewrite Hb.
    by rewrite Hlen, Z.leb_refl, Hacc.
  - apply (destroy_faults _ _ _ _ _ Hreg). by rewrite Hrefused, Hacc.
Qed.

Lemma destroy_stops_at_refused_grant_witness :
  let w := set_replies [Refuse] world256 in
  let m := mkMem (Some 2%positive) 256 4096 in
  let b := mkBlock (replicate 4096 xaa) PROT_NONE true in
  let w1 := advance w 1 [EvMprotect 2%positive 4096 PROT_READ_WRITE] (heap w) in
  region w 1%positive m 2%positive b /\
  set_memory_protection (Some 2%positive) 4096 true w
    = Some (SECURE_ERR_PROTECT_FAILED, w1) /\
  region w1 1%positive m 2%positive b /\
  secure_zero (Some 2%positive) 4096 w1 = None /\
  secure_memory_destroy (Some (Some 1%positive)) w = None.
Proof.
  intros w m b w1.
  assert (Hreg : region w 1%positive m 2%positive b).
  { constructor.
    - vm_compute; reflexivity.
    - reflexivity.
    - vm_compute; reflexivity.
    - discriminate.
    - vm_compute; reflexivity. }
  split; [exact Hreg|].
  refine (destroy_stops_at_refused_grant w 1%positive 2%positive m b Hreg _ _ _).
  - reflexivity.
  - vm_compute; discriminate.
  - reflexivity.
Defined.



(** The wrapper takes the handle by value, so the caller keeps the address
    after [lseco_destroy]: passing it again is a use of released memory,
    undefined in C and here. *)
Lemma lseco_destroy_stale h w w' :
  lseco_destroy (Some h) w = Some (tt, w') ->
  lseco_destroy (Some h) w' = None.
Proof.
  unfold lseco_destroy, bind, ret. cbn [is_null].
  rewrite !destroy_spec.
  destruct (heap w !! h) as [[m|]|] eqn:Hh; try discriminate.
  destruct (mem_page_size m =? 0); [discriminate|].
  destruct (mem_data m) as [d|]; [|discriminate].
  destruct (heap w !! d) as [[|b]|]; try discriminate.
  destruct (backing_size m <=? Z.of_nat (length (blk_bytes b))); [|discriminate].
  destruct (granted (replies w) || may_access b (backing_size m)); [|discriminate].
  intros [= <-]. cbn [advance heap]. by rewrite lookup_delete_eq.
Qed.

(** ** GetSize *)

(** C7 fails as stated: a positive capacity does not make
    [secure_memory_create] succeed.  Here the platform refuses to pin. *)
Lemma create_may_fail_for_positive_capacity :
  0 < 256 /\
  result (secure_memory_create (Some None) 256) (boot [Grant; Grant; Refuse])
    = Some (SECURE_ERR_LOCK_FAILED, Some None) /\
  result (lseco_create 256) (boot [Grant; Grant; Refuse]) = Some None /\
  SECURE_ERR_LOCK_FAILED <> SECURE_SUCCESS.
Proof.
  split; [lia|].
  split; [vm_compute; reflexivity|].
  split; [vm_compute; reflexivity|discriminate].
Qed.

(** C7, amended.  For every capacity above 0 (the page size being non-zero):
    [secure_memory_create] succeeds when the platform grants its four
    requests, and whenever it succeeds [secure_memory_get_size] and
    [lseco_get_size] on the new handle return exactly that capacity.  On
    every live handle the query returns the capacity, on [NULL] it returns
    0, and in each case the world is returned as it was. *)
Theorem get_size_correct (w : world) (slot : option loc) (cap : Z) :
  0 < cap -> SizeT.wrap (sc_pagesize w) <> 0 ->
  (grants 4 (replies w) ->
     exists h w', secure_memory_create (Some slot) cap w
                  = Some ((SECURE_SUCCESS, Some (Some h)), w')) /\
  (forall h w',
     secure_memory_create (Some slot) cap w
       = Some ((SECURE_SUCCESS, Some (Some h)), w') ->
     secure_memory_get_size (Some h) w' = Some (cap, w') /\
     lseco_get_size (Some h) w' = Some (cap, w')) /\
  (forall h m, heap w !! h = Some (OStruct m) ->
     secure_memory_get_size (Some h) w = Some (mem_size m, w) /\
     lseco_get_size (Some h) w = Some (mem_size m, w)) /\
  secure_memory_get_size None w = Some (0, w) /\
  lseco_get_size None w = Some (0, w).
Proof.
  intros Hcap Hpage. split_and!; try reflexivity.
  - intros Hg. apply create_granted; [lia|done|done].
  - intros h w' Hc.
    apply create_success in Hc as (h' & m & d & b & [= <-] & Hreg & Hsize & _).
    destruct Hreg as [Hh _ _ _ _].
    unfold lseco_get_size. cbn [is_null].
    rewrite (get_size_live _ _ _ Hh), Hsize. done.
  - intros h m Hh. unfold lseco_get_size. cbn [is_null].
    by rewrite (get_size_live _ _ _ Hh).
Qed.

Lemma get_size_correct_witness :
  0 < 256 /\
  SizeT.wrap (sc_pagesize (boot [])) <> 0 /\
  secure_memory_create (Some None) 256 (boot [])
    = Some ((SECURE_SUCCESS, Some (Some 1%positive)), world256) /\
  secure_memory_get_size (Some 1%positive) world256 = Some (256, world256) /\
  lseco_get_size (Some 1%positive) world256 = Some (256, world256).
Proof.
  assert (Hcap : 0 < 256) by lia.
  assert (Hpage : SizeT.wrap (sc_pagesize (boot [])) <> 0) by (vm_compute; discriminate).
  assert (Hc : secure_memory_create (Some None) 256 (boot [])
               = Some ((SECURE_SUCCESS, Some (Some 1%positive)), world256))
    by (vm_compute; reflexivity).
  split; [exact Hcap|]. split; [exact Hpage|]. split; [exact Hc|].
  exact (proj1 (proj2 (get_size_correct (boot []) None 256 Hcap Hpage)) _ _ Hc).
Defined.

(** ** The wrapper of Create *)

(** C10.  [lseco_create] returns [NULL] when the size is 0 and whenever
    [secure_memory_create] returns anything but [SECURE_SUCCESS], whichever
    error that is: the cause of the failure cannot be read off the result.
    A non-[NULL] result is the handle of a [secure_memory_create] that
    returned [SECURE_SUCCESS]. *)
Theorem lseco_create_collapses_failures (w : world) (size : Z) :
  (size = 0 -> lseco_create size w = Some (None, w)) /\
  (forall code slot' w',
     secure_memory_create (Some None) size w = Some ((code, slot'), w') ->
     code <> SECURE_SUCCESS ->
     lseco_create size w = Some (None, w')) /\
  (forall h w',
     lseco_create size w = Some (Some h, w') ->
     secure_memory_create (Some None) size w
     = Some ((SECURE_SUCCESS, Some (Some h)), w')).
Proof.
  split_and!.
  - intros ->. reflexivity.
  - intros code slot' w' Hc Hcode.
    rewrite lseco_create_spec, Hc.
    destruct (size =? 0) eqn:Hs0.
    + rewrite create_spec, Hs0 in Hc. by injection Hc as _ _ ->.
    + apply Z.eqb_neq in Hcode. by rewrite Hcode.
  - intros h w'. rewrite lseco_create_spec.
    destruct (size =? 0); [discriminate|].
    destruct (secure_memory_create (Some None) size w)
      as [[[code slot'] w1]|] eqn:Hc; [|discriminate].
    destruct (code =? SECURE_SUCCESS) eqn:Hcode; cbn [negb]; [|discriminate].
    apply Z.eqb_eq in Hcode as ->. intros [= Hslot <-].
    apply create_success in Hc as Hs. destruct Hs as (h' & _ & _ & _ & -> & _).
    cbn in Hslot. by simplify_eq.
Qed.

Lemma lseco_create_collapses_failures_witness :
  let w := boot [Grant; Refuse] in
  let w' := after (secure_memory_create (Some None) 256) w in
  secure_memory_create (Some None) 256 w
    = Some ((SECURE_ERR_ALLOC_FAILED, Some None), w') /\
  lseco_create 256 w = Some (None, w') /\
  lseco_create 256 (boot []) = Some (Some 1%positive, world256) /\
  secure_memory_create (Some None) 256 (boot [])
    = Some ((SECURE_SUCCESS, Some (Some 1%positive)), world256).
Proof.
  intros w w'.
  assert (Hc : secure_memory_create (Some None) 256 w
               = Some ((SECURE_ERR_ALLOC_FAILED, Some None), w'))
    by (vm_compute; reflexivity).
  assert (Hne : SECURE_ERR_ALLOC_FAILED <> SECURE_SUCCESS) by discriminate.
  assert (Hl : lseco_create 256 (boot []) = Some (Some 1%positive, world256))
    by (vm_compute; reflexivity).
  split; [exact Hc|].
  split; [exact (proj1 (proj2 (lseco_create_collapses_failures w 256)) _ _ _ Hc Hne)|].
  split; [exact Hl|].
  exact (proj2 (proj2 (lseco_create_collapses_failures (boot []) 256)) _ _ Hl).
Defined.

(** * Further properties of the code *)

(** ** The outcomes of a write and of a read on a live region *)

Lemma write_cases h m d b src len w code w' :
  region w h m d b ->
  secure_memory_write (Some h) (Some src) len w = Some (code, w') ->
  (code = SECURE_ERR_INVALID_SIZE /\ (len = 0 \/ mem_size m < len) /\ w' = w) \/
  (code = SECURE_ERR_PROTECT_FAILED /\ granted (replies w) = false /\
   w' = advance w 1 (take 1 (write_events d m len)) (heap w)) \/
  (len <> 0 /\ len <= mem_size m /\
   len <= Z.of_nat (length src) /\ len <= Z.of_nat (length (blk_bytes b)) /\
   granted (replies w) = true /\
   ((code = SECURE_ERR_PROTECT_FAILED /\ granted (drop 1 (replies w)) = false /\
     w' = advance w 2 (write_events d m len)
            (<[d := OBlock (written src len b PROT_READ_WRITE)]> (heap w))) \/
    (code = SECURE_SUCCESS /\ granted (drop 1 (replies w)) = true /\
     w' = advance w 2 (write_events d m len)
            (<[d := OBlock (written src len b PROT_NONE)]> (heap w))))).
Proof.
  intros [Hh Hd Hb Hpage Hlen]. rewrite write_spec, Hh, Hd, Hb. intros H.
  destruct (len =? 0) eqn:Hl0.
  { apply Z.eqb_eq in Hl0. injection H as <- <-. left. auto. }
  destruct (mem_size m <? len) eqn:Hsz.
  { apply Z.ltb_lt in Hsz. injection H as <- <-. left. auto. }
  apply Z.eqb_neq in Hl0. apply Z.ltb_ge in Hsz.
  destruct (mem_page_size m =? 0); [discriminate|].
  destruct (granted (replies w)) eqn:Hg0; cbn [negb] in H;
    [|injection H as <- <-; right; left; auto].
  destruct ((len <=? Z.of_nat (length src))
            && (len <=? Z.of_nat (length (blk_bytes b)))) eqn:Hfit;
    cbn [negb] in H; [|discriminate].
  apply andb_prop in Hfit as [Hfit1%Z.leb_le Hfit2%Z.leb_le].
  right. right. split_and!; try done.
  destruct (granted (drop 1 (replies w))); cbn [negb] in H;
    injection H as <- <-; [right | left]; auto.
Qed.

Lemma read_cases h m d b dst len w code dst' w' :
  region w h m d b ->
  secure_memory_read (Some h) (Some dst) len w = Some ((code, dst'), w') ->
  (code = SECURE_ERR_INVALID_SIZE /\ (len = 0 \/ mem_size m < len) /\
   dst' = Some dst /\ w' = w) \/
  (code = SECURE_ERR_PROTECT_FAILED /\ granted (replies w) = false /\
   dst' = Some dst /\
   w' = advance w 1 (take 1 (read_events d m len)) (heap w)) \/
  (len <> 0 /\ len <= mem_size m /\
   len <= Z.of_nat (length dst) /\ len <= Z.of_nat (length (blk_bytes b)) /\
   granted (replies w) = true /\
   dst' = Some (copied_out dst len b) /\
   ((code = SECURE_ERR_PROTECT_FAILED /\ granted (drop 1 (replies w)) = false /\
     w' = advance w 2 (read_events d m len)
            (<[d := OBlock (reprotected b PROT_READ_WRITE)]> (heap w))) \/
    (code = SECURE_SUCCESS /\ granted (drop 1 (replies w)) = true /\
     w' = advance w 2 (read_events d m len)
            (<[d := OBlock (reprotected b PROT_NONE)]> (heap w))))).
Proof.
  intros [Hh Hd Hb Hpage Hlen]. rewrite read_spec, Hh, Hd, Hb. intros H.
  destruct (len =? 0) eqn:Hl0.
  { apply Z.eqb_eq in Hl0. injection H as <- <- <-. left. auto. }
  destruct (mem_size m <? len) eqn:Hsz.
  { apply Z.ltb_lt in Hsz. injection H as <- <- <-. left. auto. }
  apply Z.eqb_neq in Hl0. apply Z.ltb_ge in Hsz.
  destruct (mem_page_size m =? 0); [discriminate|].
  destruct (granted (replies w)) eqn:Hg0; cbn [negb] in H;
    [|injection H as <- <- <-; right; left; auto].
  destruct ((len <=? Z.of_nat (length dst))
            && (len <=? Z.of_nat (length (blk_bytes b)))) eqn:Hfit;
    cbn [negb] in H; [|discriminate].
  apply andb_prop in Hfit as [Hfit1%Z.leb_le Hfit2%Z.leb_le].
  right. right. split_and!; try done;
  destruct (granted (drop 1 (replies w))); cbn [negb] in H;
    injection H as <- <- <-; auto.
Qed.

(** A region after its block has been replaced by one of the same length. *)
Lemma region_update w h m d b b' k evs :
  region w h m d b ->
  length (blk_bytes b') = length (blk_bytes b) ->
  region (advance w k evs (<[d := OBlock b']> (heap w))) h m d b'.
Proof.
  intros [Hh Hd Hb Hpage Hlen] Hsame.
  assert (Hne : d <> h) by congruence.
  constructor; cbn [advance heap]; try done.
  - by rewrite lookup_insert_ne.
  - apply lookup_insert_eq.
  - by rewrite Hsame.
Qed.

Lemma region_advance w h m d b k evs :
  region w h m d b -> region (advance w k evs (heap w)) h m d b.
Proof. intros [Hh Hd Hb Hpage Hlen]. by constructor. Qed.

Lemma region_unique w h m d b m' d' b' :
  region w h m d b -> region w h m' d' b' -> m' = m /\ d' = d /\ b' = b.
Proof.
  intros [Hh Hd Hb _ _] [Hh' Hd' Hb' _ _].
  assert (m' = m) as -> by congruence.
  assert (d' = d) as -> by congruence.
  split_and!; congruence.
Qed.

(** ** Sequences of requests on a live region *)

Lemma run_request_region h m d b r w code w' :
  region w h m d b ->
  run_request (Some h) r w = Some (code, w') ->
  exists b',
    region w' h m d b' /\ blk_pinned b' = blk_pinned b /\
    (forall l, l <> d -> heap w' !! l = heap w !! l) /\
    (is_store r = false -> blk_bytes b' = blk_bytes b) /\
    (code <> SECURE_ERR_PROTECT_FAILED -> blk_prot b = PROT_NONE ->
     blk_prot b' = PROT_NONE).
Proof.
  intros Hreg. destruct r as [src len | dst len |]; cbn [run_request].
  - rewrite lseco_store_is_write. intros Hw.
    destruct (write_cases _ _ _ _ _ _ _ _ _ Hreg Hw)
      as [(-> & _ & ->) | [(-> & _ & ->)
          | (_ & _ & Hf1 & Hf2 & _ & [(-> & _ & ->) | (-> & _ & ->)])]].
    + exists b. split_and!; auto.
    + exists b. split_and!; auto. by apply region_advance.
    + exists (written src len b PROT_READ_WRITE). split_and!; try done.
      * apply (region_update _ _ _ _ b); [done|]. by apply written_length.
      * intros l Hl. cbn [advance heap]. by apply lookup_insert_ne.
    + exists (written src len b PROT_NONE). split_and!; try done.
      * apply (region_update _ _ _ _ b); [done|]. by apply written_length.
      * intros l Hl. cbn [advance heap]. by apply lookup_insert_ne.
  - unfold bind. rewrite lseco_retrieve_is_read.
    destruct (secure_memory_read (Some h) (Some dst) len w)
      as [[[c dst'] w1]|] eqn:Hr; [|discriminate].
    cbn [ret]. unfold ret. intros [= <- <-].
    destruct (read_cases _ _ _ _ _ _ _ _ _ _ Hreg Hr)
      as [(-> & _ & _ & ->) | [(-> & _ & _ & ->)
          | (_ & _ & _ & _ & _ & _ & [(-> & _ & ->) | (-> & _ & ->)])]].
    + exists b. split_and!; auto.
    + exists b. split_and!; auto. by apply region_advance.
    + exists (reprotected b PROT_READ_WRITE). split_and!; try done.
      * by apply (region_update _ _ _ _ b).
      * intros l Hl. cbn [advance heap]. by apply lookup_insert_ne.
    + exists (reprotected b PROT_NONE). split_and!; try done.
      * by apply (region_update _ _ _ _ b).
      * intros l Hl. cbn [advance heap]. by apply lookup_insert_ne.
  - unfold bind, lseco_get_size, ret. cbn [is_null].
    destruct Hreg as [Hh Hd Hb Hpage Hlen].
    rewrite (get_size_live _ _ _ Hh). intros [= <- <-].
    exists b. split_and!; auto. by constructor.
Qed.

Lemma run_requests_region h m d rs : forall b w codes w',
  region w h m d b ->
  run_requests (Some h) rs w = Some (codes, w') ->
  exists b',
    region w' h m d b' /\ blk_pinned b' = blk_pinned b /\
    length codes = length rs /\
    (forall l, l <> d -> heap w' !! l = heap w !! l) /\
    (Forall (fun r => is_store r = false) rs -> blk_bytes b' = blk_bytes b) /\
    (Forall (fun c => c <> SECURE_ERR_PROTECT_FAILED) codes ->
     blk_prot b = PROT_NONE -> blk_prot b' = PROT_NONE).
Proof.
  induction rs as [|r rs IH]; intros b w codes w' Hreg; cbn [run_requests].
  - intros [= <- <-]. exists b. split_and!; auto.
  - unfold bind at 1.
    destruct (run_request (Some h) r w) as [[c w1]|] eqn:Hr; [|discriminate].
    unfold bind at 1.
    destruct (run_requests (Some h) rs w1) as [[cs w2]|] eqn:Hrs; [|discriminate].
    intros [= <- <-].
    destruct (run_request_region _ _ _ _ _ _ _ _ Hreg Hr)
      as (b1 & Hreg1 & Hpin1 & Hframe1 & Hbytes1 & Hprot1).
    destruct (IH _ _ _ _ Hreg1 Hrs)
      as (b2 & Hreg2 & Hpin2 & Hlen2 & Hframe2 & Hbytes2 & Hprot2).
    exists b2. split_and!; try done.
    + congruence.
    + cbn. by rewrite Hlen2.
    + intros l Hl. rewrite Hframe2, Hframe1; done.
    + intros [Hq Hqs]%Forall_cons. rewrite Hbytes2, Hbytes1; done.
    + intros [Hc Hcs]%Forall_cons Hp. auto.
Qed.

(** What a successful create adds to the heap. *)
Lemma create_frame slot size w h w' :
  secure_memory_create (Some slot) size w
    = Some ((SECURE_SUCCESS, Some (Some h)), w') ->
  exists m d b,
    region w' h m d b /\ mem_size m = size /\
    blk_prot b = PROT_NONE /\ blk_pinned b = true /\
    heap w !! h = None /\ heap w !! d = None /\
    (forall l, l <> h -> l <> d -> heap w' !! l = heap w !! l).
Proof.
  intros Hc. pose proof Hc as Hs.
  apply create_success in Hs
    as (h' & m & d & b & [= <-] & Hreg & Hsize & _ & Hprot & Hpin & Hh0 & Hd0).
  exists m, d, b. split_and!; try done.
  revert Hc. rewrite create_spec. cbv zeta.
  destruct (size =? 0); [discriminate|].
  repeat match goal with
         | |- (if ?c then _ else _) = _ -> _ => destruct c
         end; try discriminate.
  intros [= Hh <-]. cbn [advance heap] in *.
  destruct Hreg as [Hs Hd _ _ _]. cbn [advance heap] in Hs.
  set (l1 := fresh_addr (heap w)) in *.
  set (l2 := fresh_addr (<[l1 := _]> (heap w))) in *.
  assert (Hl2 : heap w !! l2 = None /\ l1 <> l2).
  { eapply lookup_insert_None. subst l2. apply fresh_addr_free. }
  destruct Hl2 as [_ Hne]. subst h.
  rewrite lookup_insert_ne, lookup_insert_eq in Hs by done.
  injection Hs as <-. cbn in Hd. injection Hd as <-.
  intros l Hl1 Hl2. by rewrite !lookup_insert_ne.
Qed.

(** ** Zeroing, rounding *)

(** X1.  [secure_zero] on the first [n] bytes of a live block (with [n]
    within the block).  On readable and writable pages it writes zero to
    exactly those bytes: the block then holds [n] zero bytes followed by its
    old bytes from offset [n] on, keeps its protection and pinning, and
    nothing else in the heap changes.  On pages without access, with [n] not
    0, the first store faults and the call does not return. *)
Theorem secure_zero_clears_prefix (w : world) (d : loc) (b : block) (n : nat) :
  heap w !! d = Some (OBlock b) ->
  (n <= length (blk_bytes b))%nat ->
  (blk_prot b = PROT_READ_WRITE ->
   exists w',
     secure_zero (Some d) (Z.of_nat n) w = Some (tt, w') /\
     heap w' !! d
       = Some (OBlock (mkBlock (replicate n x00 ++ drop n (blk_bytes b))
                               (blk_prot b) (blk_pinned b))) /\
     (forall l, l <> d -> heap w' !! l = heap w !! l) /\
     new_events w w' = [EvZero d (Z.of_nat n)]) /\
  (blk_prot b = PROT_NONE -> n <> 0%nat ->
   secure_zero (Some d) (Z.of_nat n) w = None).
Proof.
  intros Hb Hn. split.
  - intros Hrw.
    unfold secure_zero, load_block, bind, log, store_block, put, ret.
    rewrite Hb. rewrite (proj2 (Z.leb_le _ _)) by lia.
    unfold may_access. rewrite Hrw.
    eexists. split; [reflexivity|].
    rewrite Nat2Z.id, zero_loop_spec by lia. cbn.
    split_and!.
    + apply lookup_insert_eq.
    + intros l Hl. by apply lookup_insert_ne.
    + unfold new_events. cbn. apply drop_app_length.
  - intros Hnone Hn0.
    unfold secure_zero, load_block, bind.
    rewrite Hb. rewrite (proj2 (Z.leb_le _ _)) by lia.
    unfold may_access. rewrite Hnone.
    by rewrite (proj2 (Z.eqb_neq _ _)) by lia.
Qed.

Lemma secure_zero_clears_prefix_witness :
  let w := after (posix_memalign 4096 4096) (boot []) in
  (heap w !! 1%positive
     = Some (OBlock (mkBlock (replicate 4096 xaa) PROT_READ_WRITE false)) /\
   (16 <= length (replicate 4096 xaa))%nat /\
   exists w',
     secure_zero (Some 1%positive) 16 w = Some (tt, w') /\
     heap w' !! 1%positive
       = Some (OBlock (mkBlock (replicate 16 x00 ++ replicate 4080 xaa)
                               PROT_READ_WRITE false))) /\
  (heap world256 !! 2%positive
     = Some (OBlock (mkBlock (replicate 4096 xaa) PROT_NONE true)) /\
   secure_zero (Some 2%positive) 16 world256 = None).
Proof.
  intros w. split.
  - assert (Hb : heap w !! 1%positive
                 = Some (OBlock (mkBlock (replicate 4096 xaa) PROT_READ_WRITE false)))
      by (vm_compute; reflexivity).
    assert (Hn : (16 <= length (blk_bytes
                     (mkBlock (replicate 4096 xaa) PROT_READ_WRITE false)))%nat)
      by (vm_compute; lia).
    split; [exact Hb|]. split; [exact Hn|].
    destruct (proj1 (secure_zero_clears_prefix w 1%positive _ 16%nat Hb Hn) eq_refl)
      as (w' & Hz & Hb' & _).
    exists w'. split; [exact Hz | exact Hb'].
  - assert (Hb : heap world256 !! 2%positive
                 = Some (OBlock (mkBlock (replicate 4096 xaa) PROT_NONE true)))
      by (vm_compute; reflexivity).
    assert (Hn : (16 <= length (blk_bytes
                     (mkBlock (replicate 4096 xaa) PROT_NONE true)))%nat)
      by (vm_compute; lia).
    split; [exact Hb|].
    apply (proj2 (secure_zero_clears_prefix world256 2%positive _ 16%nat Hb Hn) eq_refl).
    discriminate.
Defined.

(** X2.  Where [size + page_size - 1] fits in [size_t], the backing size
    the code computes exceeds the size by less than one page, is the size
    itself when the size is a multiple of the page size, and grows with the
    size. *)
Theorem aligned_size_of_tight (size p : Z) :
  0 < p -> 0 <= size -> size + p - 1 < SizeT.modulus ->
  size <= aligned_size_of size p < size + p /\
  ((p | size) -> aligned_size_of size p = size) /\
  (forall size', 0 <= size' <= size ->
                 aligned_size_of size' p <= aligned_size_of size p).
Proof.
  intros Hp Hsize Hfit.
  rewrite aligned_size_of_exact by done.
  assert (Hup : forall s, 0 <= s -> s <= (s + p - 1) / p * p < s + p).
  { intros s Hs.
    pose proof (Z.div_mod (s + p - 1) p ltac:(lia)).
    pose proof (Z.mod_pos_bound (s + p - 1) p Hp). lia. }
  split; [by apply Hup|]. split.
  - intros [k ->].
    replace (k * p + p - 1) with (p - 1 + k * p) by lia.
    rewrite Z.div_add by lia. rewrite Z.div_small by lia. lia.
  - intros size' Hs'. rewrite aligned_size_of_exact by lia.
    apply Z.mul_le_mono_nonneg_r; [lia|].
    apply Z.div_le_mono; lia.
Qed.

Lemma aligned_size_of_tight_witness :
  256 <= aligned_size_of 256 4096 < 256 + 4096 /\
  aligned_size_of 8192 4096 = 8192.
Proof.
  split.
  - apply (aligned_size_of_tight 256 4096); [lia | lia | vm_compute; reflexivity].
  - apply (aligned_size_of_tight 8192 4096); [lia | lia | vm_compute; reflexivity |].
    exists 2. reflexivity.
Defined.

(** ** Capacity against backing size *)

(** X3.  The length check of [secure_memory_write] and
    [secure_memory_read] is against the capacity only.  For a capacity
    within one page of [SIZE_MAX] the rounding wraps to 0: on a platform
    that grants, [secure_memory_create] succeeds and reports that capacity
    over a block without bytes, and every later write or read of a length
    accepted by the check, once access is granted, copies outside the block
    (undefined). *)
Theorem capacity_beyond_backing (w : world) (slot : option loc) (size : Z) :
  0 < sc_pagesize w < SizeT.modulus ->
  SizeT.modulus - sc_pagesize w < size < SizeT.modulus ->
  grants 4 (replies w) ->
  exists h w',
    secure_memory_create (Some slot) size w
      = Some ((SECURE_SUCCESS, Some (Some h)), w') /\
    secure_memory_get_size (Some h) w' = Some (size, w') /\
    (exists m d, region w' h m d (mkBlock [] PROT_NONE true) /\ backing_size m = 0) /\
    forall buf len,
      0 < len <= size ->
      granted (replies w') = true ->
      secure_memory_write (Some h) (Some buf) len w' = None /\
      secure_memory_read (Some h) (Some buf) len w' = None.
Proof.
  intros Hp Hsize Hg.
  assert (Hwrap : SizeT.wrap (sc_pagesize w) = sc_pagesize w)
    by (apply Z.mod_small; lia).
  destruct (create_granted slot size w) as (h & w' & Hc); [lia | lia | done |].
  exists h, w'. split; [exact Hc|].
  apply create_success in Hc
    as (h' & m & d & b & [= <-] & Hreg & Hms & Hmp & Hprot & Hpin & _).
  rewrite Hwrap in Hmp.
  assert (Hzero : backing_size m = 0).
  { unfold backing_size. rewrite Hms, Hmp. apply aligned_size_of_wraps; lia. }
  destruct Hreg as [Hh Hd Hb Hpage Hlen].
  assert (Hnil : blk_bytes b = []).
  { apply length_zero_iff_nil. lia. }
  assert (Hbe : b = mkBlock [] PROT_NONE true).
  { destruct b as [bs pr pn]. cbn in *. by subst. }
  subst b. split_and!.
  - by rewrite (get_size_live _ _ _ Hh), Hms.
  - exists m, d. split; [by constructor | done].
  - intros buf len Hlen' Hgr.
    rewrite write_spec, read_spec, Hh, Hd, Hb, Hgr.
    rewrite (proj2 (Z.eqb_neq len 0)) by lia.
    rewrite (proj2 (Z.ltb_ge (mem_size m) len)) by lia.
    apply Z.eqb_neq in Hpage. rewrite Hpage. cbn [negb blk_bytes length].
    rewrite (proj2 (Z.leb_gt len (Z.of_nat 0))) by lia.
    rewrite !andb_false_r. done.
Qed.

Lemma capacity_beyond_backing_witness :
  0 < sc_pagesize (boot []) < SizeT.modulus /\
  SizeT.modulus - sc_pagesize (boot []) < SizeT.max < SizeT.modulus /\
  exists h w',
    secure_memory_create (Some None) SizeT.max (boot [])
      = Some ((SECURE_SUCCESS, Some (Some h)), w') /\
    secure_memory_get_size (Some h) w' = Some (SizeT.max, w') /\
    secure_memory_write (Some h) (Some binary_data) 16 w' = None.
Proof.
  assert (Hp : 0 < sc_pagesize (boot []) < SizeT.modulus) by (vm_compute; done).
  assert (Hs : SizeT.modulus - sc_pagesize (boot []) < SizeT.max < SizeT.modulus)
    by (vm_compute; done).
  assert (Hg : grants 4 (replies (boot [])))
    by (intros j _; cbn; by rewrite lookup_nil).
  split; [exact Hp|]. split; [exact Hs|].
  destruct (capacity_beyond_backing (boot []) None SizeT.max Hp Hs Hg)
    as (h & w' & Hc & Hgs & _ & Hundef).
  exists h, w'. split; [exact Hc|]. split; [exact Hgs|].
  apply (Hundef binary_data 16).
  - vm_compute; done.
  - pose proof Hc as Hc'. vm_compute in Hc'. injection Hc' as _ <-. reflexivity.
Defined.

(** ** What a failed store leaves, what a retrieve leaves *)

(** X4.  A [secure_memory_write] on a live region that does not return
    [SECURE_SUCCESS] has either written nothing (the heap is what it was
    and no copy was logged), or it returns [SECURE_ERR_PROTECT_FAILED]
    after the whole payload was copied, the closing [mprotect] having been
    refused: the block then holds the payload and is recorded readable and
    writable.  There is no partial copy. *)
Theorem store_failure_modes (w w' : world) (h d : loc) (m : secure_memory_t)
    (b : block) (src : list byte) (len code : Z) :
  region w h m d b ->
  secure_memory_write (Some h) (Some src) len w = Some (code, w') ->
  code <> SECURE_SUCCESS ->
  (heap w' = heap w /\ forall n, EvCopyIn d n ∉ new_events w w') \/
  (code = SECURE_ERR_PROTECT_FAILED /\
   heap w' !! d = Some (OBlock (written src len b PROT_READ_WRITE)) /\
   new_events w w' = write_events d m len).
Proof.
  intros Hreg Hw Hcode.
  destruct (write_cases _ _ _ _ _ _ _ _ _ Hreg Hw)
    as [(-> & _ & ->) | [(-> & _ & ->) | (_ & _ & _ & _ & _ & [(-> & _ & ->) | (-> & _)])]].
  - left. split; [done|]. intros n. rewrite new_events_refl. apply not_elem_of_nil.
  - left. split; [done|]. intros n. rewrite new_events_advance. cbn.
    intros Hin. apply elem_of_cons in Hin as [Hin | Hin]; [discriminate|].
    by apply elem_of_nil in Hin.
  - right. split; [done|]. rewrite new_events_advance. cbn [advance heap].
    split; [apply lookup_insert_eq | done].
  - done.
Qed.

Lemma store_failure_modes_witness :
  let w := set_replies [Grant; Refuse] world256 in
  let w' := after (secure_memory_write (Some 1%positive) (Some binary_data) 16) w in
  region w 1%positive (mkMem (Some 2%positive) 256 4096) 2%positive
         (mkBlock (replicate 4096 xaa) PROT_NONE true) /\
  secure_memory_write (Some 1%positive) (Some binary_data) 16 w
    = Some (SECURE_ERR_PROTECT_FAILED, w') /\
  heap w' !! 2%positive
    = Some (OBlock (mkBlock (binary_data ++ replicate 4080 xaa) PROT_READ_WRITE true)).
Proof.
  intros w w'.
  assert (Hreg : region w 1%positive (mkMem (Some 2%positive) 256 4096) 2%positive
                   (mkBlock (replicate 4096 xaa) PROT_NONE true)).
  { constructor; [vm_compute; reflexivity | reflexivity | vm_compute; reflexivity
                 | discriminate | vm_compute; reflexivity]. }
  assert (Hw : secure_memory_write (Some 1%positive) (Some binary_data) 16 w
               = Some (SECURE_ERR_PROTECT_FAILED, w')) by (vm_compute; reflexivity).
  assert (Hne : SECURE_ERR_PROTECT_FAILED <> SECURE_SUCCESS) by discriminate.
  split; [exact Hreg|]. split; [exact Hw|].
  destruct (store_failure_modes _ _ _ _ _ _ _ _ _ Hreg Hw Hne)
    as [[Hsame _] | (_ & Hb & _)].
  - vm_compute in Hsame. discriminate.
  - exact Hb.
Defined.

(** X5.  Whatever its outcome, a [secure_memory_read] on a live region
    leaves the bytes of the region as they were.  The caller's buffer keeps
    its length and its bytes from offset [length] on; its first [length]
    bytes are either untouched (always so when the call is rejected for its
    size) or the first [length] bytes of the region. *)
Theorem retrieve_keeps_contents (w w' : world) (h d : loc) (m : secure_memory_t)
    (b : block) (dst : list byte) (len code : Z) (dst' : option (list byte)) :
  region w h m d b ->
  secure_memory_read (Some h) (Some dst) len w = Some ((code, dst'), w') ->
  exists b' out,
    heap w' !! d = Some (OBlock b') /\ blk_bytes b' = blk_bytes b /\
    dst' = Some out /\ length out = length dst /\
    drop (Z.to_nat len) out = drop (Z.to_nat len) dst /\
    (out = dst \/ take (Z.to_nat len) out = take (Z.to_nat len) (blk_bytes b)) /\
    (code = SECURE_ERR_INVALID_SIZE -> out = dst).
Proof.
  intros Hreg Hr.
  pose proof Hreg as [Hh Hd Hb _ _].
  destruct (read_cases _ _ _ _ _ _ _ _ _ _ Hreg Hr)
    as [(-> & _ & -> & ->) | [(-> & _ & -> & ->)
        | (Hn0 & _ & Hfit1 & Hfit2 & _ & -> & Hrest)]].
  - exists b, dst. split_and!; auto.
  - exists b, dst. cbn [advance heap]. split_and!; auto; discriminate.
  - assert (Hout : length (copied_out dst len b) = length dst
                   /\ drop (Z.to_nat len) (copied_out dst len b) = drop (Z.to_nat len) dst
                   /\ take (Z.to_nat len) (copied_out dst len b)
                      = take (Z.to_nat len) (blk_bytes b)).
    { unfold copied_out. split_and!.
      - rewrite length_app, length_take, length_drop. lia.
      - rewrite drop_app_length'; [done|]. rewrite length_take. lia.
      - rewrite take_app_length'; [done|]. rewrite length_take. lia. }
    destruct Hout as (Ho1 & Ho2 & Ho3).
    destruct Hrest as [(-> & _ & ->) | (-> & _ & ->)];
      eexists _, (copied_out dst len b); cbn [advance heap];
      (split; [apply lookup_insert_eq|]); split_and!; auto; discriminate.
Qed.

Lemma retrieve_keeps_contents_witness :
  let w := world256 in
  let dst := replicate 32 x00 in
  let w' := after (secure_memory_read (Some 1%positive) (Some dst) 16) w in
  region w 1%positive (mkMem (Some 2%positive) 256 4096) 2%positive
         (mkBlock (replicate 4096 xaa) PROT_NONE true) /\
  secure_memory_read (Some 1%positive) (Some dst) 16 w
    = Some ((SECURE_SUCCESS, Some (replicate 16 xaa ++ replicate 16 x00)), w') /\
  exists b', heap w' !! 2%positive = Some (OBlock b')
             /\ blk_bytes b' = replicate 4096 xaa.
Proof.
  intros w dst w'.
  assert (Hreg : region w 1%positive (mkMem (Some 2%positive) 256 4096) 2%positive
                   (mkBlock (replicate 4096 xaa) PROT_NONE true)).
  { constructor; [vm_compute; reflexivity | reflexivity | vm_compute; reflexivity
                 | discriminate | vm_compute; reflexivity]. }
  assert (Hr : secure_memory_read (Some 1%positive) (Some dst) 16 w
               = Some ((SECURE_SUCCESS, Some (replicate 16 xaa ++ replicate 16 x00)), w'))
    by (vm_compute; reflexivity).
  split; [exact Hreg|]. split; [exact Hr|].
  destruct (retrieve_keeps_contents _ _ _ _ _ _ _ _ _ _ Hreg Hr)
    as (b' & out & Hb' & Hbytes & _).
  exists b'. split; [exact Hb' | exact Hbytes].
Defined.

(** X6.  Locked at rest and pinned for life.  A region handed out by
    [secure_memory_create] is at rest: live, of the requested capacity,
    without access, pinned.  Through any sequence of stores, retrieves and
    size queries on it, whatever they return, the region stays live and
    pinned and [lseco_get_size] keeps returning the same capacity; and it
    is at rest again at the end unless one of the calls returned
    [SECURE_ERR_PROTECT_FAILED]. *)
Theorem at_rest_invariant (w : world) (h : loc) (cap : Z) :
  (forall slot w0,
     secure_memory_create (Some slot) cap w0
       = Some ((SECURE_SUCCESS, Some (Some h)), w) ->
     at_rest w h cap) /\
  (forall rs codes w',
     at_rest w h cap ->
     run_requests (Some h) rs w = Some (codes, w') ->
     (exists m d b, region w' h m d b /\ mem_size m = cap /\ blk_pinned b = true) /\
     lseco_get_size (Some h) w' = Some (cap, w') /\
     (Forall (fun c => c <> SECURE_ERR_PROTECT_FAILED) codes -> at_rest w' h cap)).
Proof.
  split.
  - intros slot w0 Hc.
    apply create_frame in Hc as (m & d & b & Hreg & Hsize & Hprot & Hpin & _).
    by exists m, d, b.
  - intros rs codes w' (m & d & b & Hreg & Hsize & Hprot & Hpin) Hrun.
    destruct (run_requests_region _ _ _ _ _ _ _ _ Hreg Hrun)
      as (b' & Hreg' & Hpin' & _ & _ & _ & Hprot').
    split_and!.
    + exists m, d, b'. split_and!; [done | done | congruence].
    + unfold lseco_get_size. cbn [is_null].
      destruct Hreg' as [Hh _ _ _ _]. by rewrite (get_size_live _ _ _ Hh), Hsize.
    + intros Hcodes. exists m, d, b'. split_and!; [done | done | auto | congruence].
Qed.

Lemma at_rest_invariant_witness :
  let rs := [Store binary_data 16; GetSize; Retrieve (replicate 16 x00) 16;
             Store binary_data 257] in
  let w' := after (run_requests (Some 1%positive) rs) world256 in
  secure_memory_create (Some None) 256 (boot [])
    = Some ((SECURE_SUCCESS, Some (Some 1%positive)), world256) /\
  run_requests (Some 1%positive) rs world256
    = Some ([SECURE_SUCCESS; 0; SECURE_SUCCESS; SECURE_ERR_INVALID_SIZE], w') /\
  at_rest w' 1%positive 256.
Proof.
  intros rs w'.
  assert (Hc : secure_memory_create (Some None) 256 (boot [])
               = Some ((SECURE_SUCCESS, Some (Some 1%positive)), world256))
    by (vm_compute; reflexivity).
  assert (Hrun : run_requests (Some 1%positive) rs world256
                 = Some ([SECURE_SUCCESS; 0; SECURE_SUCCESS; SECURE_ERR_INVALID_SIZE], w'))
    by (vm_compute; reflexivity).
  split; [exact Hc|]. split; [exact Hrun|].
  destruct (at_rest_invariant world256 1%positive 256) as [Hinit Hkeep].
  apply (Hkeep _ _ _ (Hinit _ _ Hc) Hrun).
  repeat constructor; discriminate.
Defined.

(** X7.  The last store wins, over what the earlier one left.  After two
    successful stores, of [b1] and then of [b2], a successful retrieve of
    [n] bytes, [n] within the longer of the two, returns the first [n]
    bytes of [b2] laid over [b1]: all of [b2], then the bytes of [b1]
    beyond the length of [b2].  A shorter second payload does not erase the
    tail of the first. *)
Theorem last_store_wins (w w1 w2 w3 : world) (h : loc) (b1 b2 buf out : list byte)
    (n : nat) :
  secure_memory_write (Some h) (Some b1) (Z.of_nat (length b1)) w
    = Some (SECURE_SUCCESS, w1) ->
  secure_memory_write (Some h) (Some b2) (Z.of_nat (length b2)) w1
    = Some (SECURE_SUCCESS, w2) ->
  secure_memory_read (Some h) (Some buf) (Z.of_nat n) w2
    = Some ((SECURE_SUCCESS, Some out), w3) ->
  (n <= Nat.max (length b1) (length b2))%nat ->
  take n out = take n (b2 ++ drop (length b2) b1).
Proof.
  intros Hw1 Hw2 Hr Hn.
  apply write_success in Hw1
    as (m & d & b & Hh & Hd & Hb & _ & _ & _ & Hfit1 & ->).
  assert (Hne : d <> h) by congruence.
  apply write_success in Hw2
    as (m' & d' & b' & Hh' & Hd' & Hb' & _ & _ & _ & Hfit2 & ->).
  cbn [advance heap] in Hh', Hb'.
  rewrite lookup_insert_ne in Hh' by done.
  rewrite Hh in Hh'. injection Hh' as <-.
  rewrite Hd in Hd'. injection Hd' as <-.
  rewrite lookup_insert_eq in Hb'. injection Hb' as <-.
  apply read_success in Hr
    as (m' & d' & b' & Hh'' & Hd'' & Hb'' & _ & _ & Hbuf & Hfit3 & [= ->] & _).
  cbn [advance heap] in Hh'', Hb''.
  rewrite !lookup_insert_ne in Hh'' by done.
  rewrite Hh in Hh''. injection Hh'' as <-.
  rewrite Hd in Hd''. injection Hd'' as <-.
  rewrite lookup_insert_eq in Hb''. injection Hb'' as <-.
  unfold copied_out, written in *. cbn [blk_bytes] in *. rewrite !Nat2Z.id in *.
  rewrite !firstn_all in *.
  rewrite length_app, length_drop, length_app, length_drop in Hfit3.
  rewrite length_app, length_drop in Hfit2.
  rewrite take_app_le
    by (rewrite length_take; repeat (rewrite ?length_app, ?length_drop); lia).
  rewrite take_take, Nat.min_id.
  destruct (decide (length b2 <= length b1)%nat) as [Hle | Hgt].
  - rewrite drop_app_le by done. rewrite app_assoc.
    apply take_app_le. rewrite length_app, length_drop. lia.
  - rewrite !(take_app_le b2) by lia. reflexivity.
Qed.

Lemma last_store_wins_witness :
  let b1 := binary_data in
  let b2 := [xff; xfe; xfd; xfc] in
  let w1 := after (secure_memory_write (Some 1%positive) (Some b1) 16) world256 in
  let w2 := after (secure_memory_write (Some 1%positive) (Some b2) 4) w1 in
  let w3 := after (secure_memory_read (Some 1%positive) (Some (replicate 16 x00)) 16) w2 in
  secure_memory_write (Some 1%positive) (Some b1) 16 world256
    = Some (SECURE_SUCCESS, w1) /\
  secure_memory_write (Some 1%positive) (Some b2) 4 w1 = Some (SECURE_SUCCESS, w2) /\
  secure_memory_read (Some 1%positive) (Some (replicate 16 x00)) 16 w2
    = Some ((SECURE_SUCCESS,
             Some [xff; xfe; xfd; xfc; x04; x05; x06; x07;
                   x08; x09; x0a; x0b; x0c; x0d; x0e; x0f]), w3) /\
  take 16 [xff; xfe; xfd; xfc; x04; x05; x06; x07;
           x08; x09; x0a; x0b; x0c; x0d; x0e; x0f]
  = take 16 (b2 ++ drop 4 b1).
Proof.
  intros b1 b2 w1 w2 w3.
  assert (H1 : secure_memory_write (Some 1%positive) (Some b1)
                 (Z.of_nat (length b1)) world256 = Some (SECURE_SUCCESS, w1))
    by (vm_compute; reflexivity).
  assert (H2 : secure_memory_write (Some 1%positive) (Some b2)
                 (Z.of_nat (length b2)) w1 = Some (SECURE_SUCCESS, w2))
    by (vm_compute; reflexivity).
  assert (H3 : secure_memory_read (Some 1%positive) (Some (replicate 16 x00))
                 (Z.of_nat 16) w2
               = Some ((SECURE_SUCCESS,
                        Some [xff; xfe; xfd; xfc; x04; x05; x06; x07;
                              x08; x09; x0a; x0b; x0c; x0d; x0e; x0f]), w3))
    by (vm_compute; reflexivity).
  split; [exact H1|]. split; [exact H2|]. split; [exact H3|].
  apply (last_store_wins _ _ _ _ _ _ _ _ _ 16%nat H1 H2 H3).
  vm_compute. lia.
Defined.

(** X8.  Retrieving does not use up what was stored.  On a live region,
    after a successful store of [b] and then any number of retrieves and
    size queries on the same handle, whatever they return, a successful
    retrieve of [n] bytes, [n] at most the length of [b], returns the first
    [n] bytes of [b]. *)
Theorem retrieve_is_repeatable (w w1 w2 w3 : world) (h d : loc) (m : secure_memory_t)
    (blk : block) (b buf out : list byte) (rs : list request) (codes : list Z)
    (n : nat) :
  region w h m d blk ->
  secure_memory_write (Some h) (Some b) (Z.of_nat (length b)) w
    = Some (SECURE_SUCCESS, w1) ->
  Forall (fun r => is_store r = false) rs ->
  run_requests (Some h) rs w1 = Some (codes, w2) ->
  secure_memory_read (Some h) (Some buf) (Z.of_nat n) w2
    = Some ((SECURE_SUCCESS, Some out), w3) ->
  (n <= length b)%nat ->
  take n out = take n b.
Proof.
  intros Hreg Hw Hq Hrun Hr Hn.
  destruct (write_cases _ _ _ _ _ _ _ _ _ Hreg Hw)
    as [(? & _) | [(? & _) | (_ & _ & _ & Hfit & _ & [(? & _) | (_ & _ & ->)])]];
    try discriminate.
  assert (Hreg1 := region_update w h m d blk
                     (written b (Z.of_nat (length b)) blk PROT_NONE) 2
                     (write_events d m (Z.of_nat (length b))) Hreg
                     (written_length b _ blk PROT_NONE (Z.le_refl _) Hfit)).
  destruct (run_requests_region _ _ _ _ _ _ _ _ Hreg1 Hrun)
    as (b' & Hreg2 & _ & _ & _ & Hbytes & _).
  specialize (Hbytes Hq).
  destruct (read_cases _ _ _ _ _ _ _ _ _ _ Hreg2 Hr)
    as [(? & _) | [(? & _) | (_ & _ & _ & Hfit' & _ & [= ->] & _)]];
    try discriminate.
  unfold copied_out. rewrite Hbytes. unfold written. cbn [blk_bytes].
  rewrite !Nat2Z.id, firstn_all.
  rewrite take_app_le by (rewrite length_take, Hbytes in *; cbn in *;
                          rewrite length_app, length_drop in *; lia).
  rewrite take_take, Nat.min_id.
  by apply take_app_le.
Qed.

Lemma retrieve_is_repeatable_witness :
  let rs := [Retrieve (replicate 16 x00) 16; GetSize; Retrieve (replicate 8 x00) 300] in
  let w1 := after (secure_memory_write (Some 1%positive) (Some binary_data) 16) world256 in
  let w2 := after (run_requests (Some 1%positive) rs) w1 in
  let w3 := after (secure_memory_read (Some 1%positive) (Some (replicate 8 x00)) 4) w2 in
  region world256 1%positive (mkMem (Some 2%positive) 256 4096) 2%positive
         (mkBlock (replicate 4096 xaa) PROT_NONE true) /\
  secure_memory_write (Some 1%positive) (Some binary_data) 16 world256
    = Some (SECURE_SUCCESS, w1) /\
  run_requests (Some 1%positive) rs w1
    = Some ([SECURE_SUCCESS; 0; SECURE_ERR_INVALID_SIZE], w2) /\
  secure_memory_read (Some 1%positive) (Some (replicate 8 x00)) 4 w2
    = Some ((SECURE_SUCCESS, Some ([x00; x01; x02; x03] ++ replicate 4 x00)), w3) /\
  take 4 ([x00; x01; x02; x03] ++ replicate 4 x00) = take 4 binary_data.
Proof.
  intros rs w1 w2 w3.
  assert (Hreg : region world256 1%positive (mkMem (Some 2%positive) 256 4096)
                   2%positive (mkBlock (replicate 4096 xaa) PROT_NONE true)).
  { constructor; [vm_compute; reflexivity | reflexivity | vm_compute; reflexivity
                 | discriminate | vm_compute; reflexivity]. }
  assert (Hw : secure_memory_write (Some 1%positive) (Some binary_data)
                 (Z.of_nat (length binary_data)) world256 = Some (SECURE_SUCCESS, w1))
    by (vm_compute; reflexivity).
  assert (Hq : Forall (fun r => is_store r = false) rs) by (repeat constructor).
  assert (Hrun : run_requests (Some 1%positive) rs w1
                 = Some ([SECURE_SUCCESS; 0; SECURE_ERR_INVALID_SIZE], w2))
    by (vm_compute; reflexivity).
  assert (Hr : secure_memory_read (Some 1%positive) (Some (replicate 8 x00))
                 (Z.of_nat 4) w2
               = Some ((SECURE_SUCCESS, Some ([x00; x01; x02; x03] ++ replicate 4 x00)), w3))
    by (vm_compute; reflexivity).
  split; [exact Hreg|]. split; [exact Hw|]. split; [exact Hrun|]. split; [exact Hr|].
  apply (retrieve_is_repeatable _ _ _ _ _ _ _ _ _ _ _ _ _ 4%nat Hreg Hw Hq Hrun Hr).
  vm_compute. lia.
Defined.

(** X9.  A whole life cycle leaves nothing behind.  After a successful
    [secure_memory_create] and any sequence of stores, retrieves and size
    queries on the handle (whatever they return): if the platform grants the
    request for access of [secure_memory_destroy], the destroy runs to its
    end; and every destroy that returns has nulled the caller's variable and
    left exactly the heap from before the create. *)
Theorem life_cycle_restores_heap (w0 w1 w2 : world) (slot : option loc) (h : loc)
    (size : Z) (rs : list request) (codes : list Z) :
  secure_memory_create (Some slot) size w0
    = Some ((SECURE_SUCCESS, Some (Some h)), w1) ->
  run_requests (Some h) rs w1 = Some (codes, w2) ->
  (granted (replies w2) = true ->
   exists w3, secure_memory_destroy (Some (Some h)) w2 = Some (Some None, w3)) /\
  (forall slot' w3,
     secure_memory_destroy (Some (Some h)) w2 = Some (slot', w3) ->
     slot' = Some None /\ heap w3 = heap w0).
Proof.
  intros Hc Hrun.
  apply create_frame in Hc
    as (m & d & b & Hreg & _ & _ & _ & Hh0 & Hd0 & Hframe1).
  destruct (run_requests_region _ _ _ _ _ _ _ _ Hreg Hrun)
    as (b' & Hreg' & _ & _ & Hframe2 & _).
  split.
  - intros Hgr. eexists. apply (destroy_region _ _ _ _ _ Hreg'). by rewrite Hgr.
  - intros slot' w3 Hdes.
    destruct (destroy_returns _ _ _ _ _ _ _ Hreg' Hdes) as (_ & -> & ->).
    split; [done|].
    cbn [advance heap]. apply map_eq. intros l.
    destruct (decide (l = h)) as [->|Hlh].
    { by rewrite lookup_delete_eq. }
    rewrite lookup_delete_ne by done.
    destruct (decide (l = d)) as [->|Hld].
    { by rewrite lookup_delete_eq. }
    rewrite lookup_delete_ne by done.
    rewrite Hframe2 by done. by apply Hframe1.
Qed.

Lemma life_cycle_restores_heap_witness :
  let rs := [Store binary_data 16; Retrieve (replicate 16 x00) 16; Store binary_data 0] in
  let w2 := after (run_requests (Some 1%positive) rs) world256 in
  secure_memory_create (Some None) 256 (boot [])
    = Some ((SECURE_SUCCESS, Some (Some 1%positive)), world256) /\
  run_requests (Some 1%positive) rs world256
    = Some ([SECURE_SUCCESS; SECURE_SUCCESS; SECURE_ERR_INVALID_SIZE], w2) /\
  granted (replies w2) = true /\
  exists w3,
    secure_memory_destroy (Some (Some 1%positive)) w2 = Some (Some None, w3) /\
    heap w3 = heap (boot []).
Proof.
  intros rs w2.
  assert (Hc : secure_memory_create (Some None) 256 (boot [])
               = Some ((SECURE_SUCCESS, Some (Some 1%positive)), world256))
    by (vm_compute; reflexivity).
  assert (Hrun : run_requests (Some 1%positive) rs world256
                 = Some ([SECURE_SUCCESS; SECURE_SUCCESS; SECURE_ERR_INVALID_SIZE], w2))
    by (vm_compute; reflexivity).
  assert (Hgr : granted (replies w2) = true) by (vm_compute; reflexivity).
  split; [exact Hc|]. split; [exact Hrun|]. split; [exact Hgr|].
  destruct (life_cycle_restores_heap _ _ _ _ _ _ _ _ Hc Hrun) as [Hgo Hback].
  destruct (Hgo Hgr) as [w3 Hdes].
  exists w3. split; [exact Hdes|].
  exact (proj2 (Hback _ _ Hdes)).
Defined.

(** X10.  Regions do not share state.  While a region is live: a
    [secure_memory_create], whatever it returns, leaves it as it is, and a
    handle it hands out and that handle's block are not those of the
    region; stores, retrieves and size queries on another region leave it
    as it is; and so does the destroy of another region. *)
Theorem regions_are_independent (w : world) (h1 d1 : loc) (m1 : secure_memory_t)
    (b1 : block) :
  region w h1 m1 d1 b1 ->
  (forall slot size code slot' w',
     secure_memory_create (Some slot) size w = Some ((code, slot'), w') ->
     region w' h1 m1 d1 b1 /\
     forall h2 m2 d2 b2, slot' = Some (Some h2) -> code = SECURE_SUCCESS ->
                         region w' h2 m2 d2 b2 -> h2 <> h1 /\ d2 <> d1) /\
  (forall h2 m2 d2 b2 rs codes w',
     region w h2 m2 d2 b2 -> d2 <> d1 ->
     run_requests (Some h2) rs w = Some (codes, w') ->
     region w' h1 m1 d1 b1) /\
  (forall h2 m2 d2 b2 slot' w',
     region w h2 m2 d2 b2 -> h2 <> h1 -> d2 <> d1 ->
     secure_memory_destroy (Some (Some h2)) w = Some (slot', w') ->
     region w' h1 m1 d1 b1).
Proof.
  intros Hreg1. pose proof Hreg1 as [Hh1 Hd1 Hb1 Hpage1 Hlen1].
  split_and!.
  - intros slot size code slot' w' Hc.
    destruct (decide (code = SECURE_SUCCESS)) as [->|Hcode].
    + pose proof Hc as Hs.
      apply create_success in Hs as (h & _ & _ & _ & -> & _).
      apply create_frame in Hc
        as (m & d & b & Hreg & _ & _ & _ & Hh0 & Hd0 & Hframe).
      assert (Hn : h1 <> h /\ h1 <> d /\ d1 <> h /\ d1 <> d)
        by (split_and!; congruence).
      destruct Hn as (? & ? & ? & ?).
      split.
      * constructor; try done; rewrite Hframe; done.
      * intros h2 m2 d2 b2 [= <-] _ Hreg2.
        destruct (region_unique _ _ _ _ _ _ _ _ Hreg Hreg2) as (_ & -> & _).
        done.
    + destruct (create_failure _ _ _ _ _ _ Hc Hcode) as (-> & Hheap & _).
      split.
      * constructor; try done; by rewrite Hheap.
      * intros h2 m2 d2 b2 _ Hs. done.
  - intros h2 m2 d2 b2 rs codes w' Hreg2 Hne Hrun.
    destruct (run_requests_region _ _ _ _ _ _ _ _ Hreg2 Hrun)
      as (b' & Hreg' & _ & _ & Hframe & _).
    destruct Hreg2 as [Hh2 Hd2 Hb2 _ _].
    assert (h1 <> d2) by congruence.
    constructor; try done; rewrite Hframe; done.
  - intros h2 m2 d2 b2 slot' w' Hreg2 Hnh Hnd Hdes.
    destruct (destroy_returns _ _ _ _ _ _ _ Hreg2 Hdes) as (_ & -> & ->).
    destruct Hreg2 as [Hh2 Hd2 Hb2 _ _].
    assert (h1 <> d2 /\ d1 <> h2) as [? ?] by (split; congruence).
    constructor; try done; cbn [advance heap];
      rewrite !lookup_delete_ne by done; done.
Qed.

Lemma regions_are_independent_witness :
  let w := after (lseco_create 16) world256 in
  let rs := [Store binary_data 16; Retrieve (replicate 16 x00) 16] in
  let w' := after (run_requests (Some 3%positive) rs) w in
  region w 1%positive (mkMem (Some 2%positive) 256 4096) 2%positive
         (mkBlock (replicate 4096 xaa) PROT_NONE true) /\
  region w 3%positive (mkMem (Some 4%positive) 16 4096) 4%positive
         (mkBlock (replicate 4096 xaa) PROT_NONE true) /\
  run_requests (Some 3%positive) rs w = Some ([SECURE_SUCCESS; SECURE_SUCCESS], w') /\
  region w' 1%positive (mkMem (Some 2%positive) 256 4096) 2%positive
         (mkBlock (replicate 4096 xaa) PROT_NONE true).
Proof.
  intros w rs w'.
  assert (Hreg1 : region w 1%positive (mkMem (Some 2%positive) 256 4096) 2%positive
                    (mkBlock (replicate 4096 xaa) PROT_NONE true)).
  { constructor; [vm_compute; reflexivity | reflexivity | vm_compute; reflexivity
                 | discriminate | vm_compute; reflexivity]. }
  assert (Hreg2 : region w 3%positive (mkMem (Some 4%positive) 16 4096) 4%positive
                    (mkBlock (replicate 4096 xaa) PROT_NONE true)).
  { constructor; [vm_compute; reflexivity | reflexivity | vm_compute; reflexivity
                 | discriminate | vm_compute; reflexivity]. }
  assert (Hne : 4%positive <> 2%positive) by discriminate.
  assert (Hrun : run_requests (Some 3%positive) rs w
                 = Some ([SECURE_SUCCESS; SECURE_SUCCESS], w'))
    by (vm_compute; reflexivity).
  split; [exact Hreg1|]. split; [exact Hreg2|]. split; [exact Hrun|].
  exact (proj1 (proj2 (regions_are_independent w _ _ _ _ Hreg1))
           _ _ _ _ _ _ _ Hreg2 Hne Hrun).
Defined.

(** ** The wrappers of [lseco_ffi.c] *)

(** X11.  The wrappers add no behaviour of their own.  On every handle,
    pointer, length and world, [lseco_store], [lseco_retrieve] and
    [lseco_get_size] return what [secure_memory_write],
    [secure_memory_read] and [secure_memory_get_size] return and leave the
    same world: the checks they make first are checks the core makes
    again.  [lseco_destroy] leaves the world that [secure_memory_destroy]
    leaves when given a variable holding the handle. *)
Theorem ffi_wrappers_add_nothing (w : world) (handle : option loc)
    (data : option (list byte)) (len : Z) :
  lseco_store handle data len w = secure_memory_write handle data len w /\
  lseco_retrieve handle data len w = secure_memory_read handle data len w /\
  lseco_get_size handle w = secure_memory_get_size handle w /\
  snd <$> lseco_destroy handle w = snd <$> secure_memory_destroy (Some handle) w.
Proof.
  split; [apply lseco_store_is_write|].
  split; [apply lseco_retrieve_is_read|].
  split; [by destruct handle|].
  destruct handle as [h|]; [|reflexivity].
  unfold lseco_destroy, bind, ret. cbn [is_null].
  by destruct (secure_memory_destroy (Some (Some h)) w) as [[s w']|].
Qed.

(** X12.  [lseco_destroy] cannot null the caller's copy of the handle, and
    nothing guards a second use: once [lseco_destroy] has returned, a size
    query, another destroy, and a store or retrieve of a non-zero length
    through the same handle all read the released struct (undefined). *)
Theorem use_after_destroy_is_undefined (w w' : world) (h : loc) :
  lseco_destroy (Some h) w = Some (tt, w') ->
  lseco_get_size (Some h) w' = None /\
  lseco_destroy (Some h) w' = None /\
  forall buf len, len <> 0 ->
    lseco_store (Some h) (Some buf) len w' = None /\
    lseco_retrieve (Some h) (Some buf) len w' = None.
Proof.
  intros Hd.
  assert (Hgone : heap w' !! h = None).
  { revert Hd. unfold lseco_destroy, bind, ret. cbn [is_null].
    rewrite destroy_spec.
    destruct (heap w !! h) as [[m|]|]; try discriminate.
    destruct (mem_page_size m =? 0); [discriminate|].
    destruct (mem_data m) as [d|]; [|discriminate].
    destruct (heap w !! d) as [[|b]|]; try discriminate.
    destruct (backing_size m <=? Z.of_nat (length (blk_bytes b))); [|discriminate].
    destruct (granted (replies w) || may_access b (backing_size m)); [|discriminate].
    intros [= <-]. cbn [advance heap]. apply lookup_delete_eq. }
  split_and!.
  - unfold lseco_get_size, secure_memory_get_size, load_struct, bind.
    cbn [is_null]. by rewrite Hgone.
  - unfold lseco_destroy, bind. cbn [is_null]. by rewrite destroy_spec, Hgone.
  - intros buf len Hlen. rewrite lseco_store_is_write, lseco_retrieve_is_read.
    rewrite write_spec, read_spec, Hgone.
    apply Z.eqb_neq in Hlen. by rewrite Hlen.
Qed.

Lemma use_after_destroy_is_undefined_witness :
  let w' := after (lseco_destroy (Some 1%positive)) world256 in
  lseco_destroy (Some 1%positive) world256 = Some (tt, w') /\
  lseco_get_size (Some 1%positive) w' = None /\
  lseco_store (Some 1%positive) (Some binary_data) 16 w' = None.
Proof.
  intros w'.
  assert (Hd : lseco_destroy (Some 1%positive) world256 = Some (tt, w'))
    by (vm_compute; reflexivity).
  destruct (use_after_destroy_is_undefined _ _ _ Hd) as (Hg & _ & Hs).
  split; [exact Hd|]. split; [exact Hg|].
  apply (Hs binary_data 16). discriminate.
Defined.

(** X13.  [lseco_error_string] has a message for every integer: never the
    empty string; the six codes from 0 down to -5 get six different
    messages, none of them the fallback; every other integer gets
    ["Unknown error"].  [lseco_version] is not empty either. *)
Theorem error_string_total (c c' : Z) :
  lseco_error_string c <> "" /\
  (lseco_error_string c = "Unknown error" <-> ~ (-5 <= c <= 0)) /\
  (-5 <= c <= 0 -> -5 <= c' <= 0 ->
   lseco_error_string c = lseco_error_string c' -> c = c') /\
  lseco_version <> "".
Proof.
  assert (Hcases : forall z, -5 <= z <= 0 ->
            z = 0 \/ z = -1 \/ z = -2 \/ z = -3 \/ z = -4 \/ z = -5) by (intros; lia).
  assert (Hout : forall z, ~ (-5 <= z <= 0) -> lseco_error_string z = "Unknown error").
  { intros z Hz. unfold lseco_error_string.
    repeat match goal with
           | |- context [?a =? ?b] =>
               destruct (Z.eqb_spec a b) as [Heq|_];
               [exfalso; apply Hz; rewrite Heq; vm_compute; split; discriminate|]
           end.
    reflexivity. }
  split_and!.
  - destruct (decide (-5 <= c <= 0)) as [Hin | Hn].
    + destruct (Hcases c Hin) as [->|[->|[->|[->|[->| ->]]]]]; discriminate.
    + by rewrite Hout.
  - split.
    + intros Hu Hin.
      destruct (Hcases c Hin) as [->|[->|[->|[->|[->| ->]]]]]; discriminate.
    + apply Hout.
  - intros Hc Hc'.
    destruct (Hcases c Hc) as [->|[->|[->|[->|[->| ->]]]]];
      destruct (Hcases c' Hc') as [->|[->|[->|[->|[->| ->]]]]];
      (reflexivity || discriminate).
  - discriminate.
Qed.

Lemma error_string_total_witness :
  lseco_error_string (-3) = "Failed to lock memory in RAM" /\
  lseco_error_string 7 = "Unknown error" /\
  (lseco_error_string (-3) = lseco_error_string (-4) -> -3 = -4).
Proof.
  split; [reflexivity|].
  split.
  - apply (error_string_total 7 0). lia.
  - apply (error_string_total (-3) (-4)); lia.
Defined.

(** X14.  The status codes form closed sets.  Whatever the arguments and
    the platform, [lseco_store] and [lseco_retrieve] return one of
    [LSECO_SUCCESS], [LSECO_ERR_NULL_PTR], [LSECO_ERR_PROTECT_FAILED] and
    [LSECO_ERR_INVALID_SIZE], never an allocation or a lock error; and
    [secure_memory_create] returns one of the six codes of
    [secure_memory.h], [SECURE_ERR_NULL_PTR] only for a [NULL] out-pointer. *)
Theorem status_codes_are_closed (w w' : world) (handle : option loc)
    (data : option (list byte)) (len size code : Z) :
  (lseco_store handle data len w = Some (code, w') ->
   code = LSECO_SUCCESS \/ code = LSECO_ERR_NULL_PTR \/
   code = LSECO_ERR_PROTECT_FAILED \/ code = LSECO_ERR_INVALID_SIZE) /\
  (forall data', lseco_retrieve handle data len w = Some ((code, data'), w') ->
   code = LSECO_SUCCESS \/ code = LSECO_ERR_NULL_PTR \/
   code = LSECO_ERR_PROTECT_FAILED \/ code = LSECO_ERR_INVALID_SIZE) /\
  (forall out slot', secure_memory_create out size w = Some ((code, slot'), w') ->
   (code = SECURE_ERR_NULL_PTR <-> out = None) /\
   (code = SECURE_SUCCESS \/ code = SECURE_ERR_NULL_PTR \/
    code = SECURE_ERR_ALLOC_FAILED \/ code = SECURE_ERR_LOCK_FAILED \/
    code = SECURE_ERR_PROTECT_FAILED \/ code = SECURE_ERR_INVALID_SIZE)).
Proof.
  split_and!.
  - rewrite lseco_store_is_write.
    destruct handle as [h|]; [|intros [= <- _]; auto].
    destruct data as [src|]; [|intros [= <- _]; auto].
    rewrite write_spec.
    repeat case_match; try discriminate; intros [= <- _]; auto.
  - intros data'. rewrite lseco_retrieve_is_read.
    destruct handle as [h|]; [|intros [= <- _ _]; auto].
    destruct data as [dst|]; [|intros [= <- _ _]; auto].
    rewrite read_spec.
    repeat case_match; try discriminate; intros [= <- _ _]; auto.
  - intros out slot'.
    destruct out as [slot|]; [|intros [= <- _ _]; split; [done | auto]].
    rewrite create_spec. cbv zeta.
    repeat case_match; try discriminate; intros [= <- _ _];
      (split; [split; discriminate|]); auto 10.
Qed.

Lemma status_codes_are_closed_witness :
  let w := set_replies [Refuse] world256 in
  let w' := after (lseco_store (Some 1%positive) (Some binary_data) 16) w in
  lseco_store (Some 1%positive) (Some binary_data) 16 w
    = Some (LSECO_ERR_PROTECT_FAILED, w') /\
  (LSECO_ERR_PROTECT_FAILED = LSECO_SUCCESS \/
   LSECO_ERR_PROTECT_FAILED = LSECO_ERR_NULL_PTR \/
   LSECO_ERR_PROTECT_FAILED = LSECO_ERR_PROTECT_FAILED \/
   LSECO_ERR_PROTECT_FAILED = LSECO_ERR_INVALID_SIZE).
Proof.
  intros w w'.
  assert (Hs : lseco_store (Some 1%positive) (Some binary_data) 16 w
               = Some (LSECO_ERR_PROTECT_FAILED, w')) by (vm_compute; reflexivity).
  split; [exact Hs|].
  exact (proj1 (status_codes_are_closed _ _ _ _ _ 0 _) Hs).
Defined.

(** ** The tests of [test_lseco.c] *)

Lemma strlen_bound s n : strlen s = Some n -> (n < length s)%nat.
Proof.
  revert n. induction s as [|c s IH]; intros n; cbn; [discriminate|].
  destruct (Byte.eqb c x00); [intros [= <-]; lia|].
  destruct (strlen s) as [k|]; [|discriminate].
  intros [= <-]. specialize (IH k eq_refl). lia.
Qed.

(** A string compares equal to any array that starts with it, terminator
    included. *)
Lemma strcmp_prefix s : forall n r,
  strlen s = Some n -> strcmp (take (S n) s ++ r) s = Some 0.
Proof.
  induction s as [|c s IH]; intros n r; cbn [strlen]; [discriminate|].
  destruct (Byte.eqb c x00) eqn:Hc.
  - intros [= <-]. cbn. rewrite (Byte.byte_dec_lb eq_refl). by rewrite Hc.
  - destruct (strlen s) as [k|] eqn:Hk; [|discriminate].
    intros [= <-]. cbn [take app strcmp].
    rewrite (Byte.byte_dec_lb eq_refl), Hc. by apply IH.
Qed.

Lemma calm_advance n w k evs hp : calm n w -> calm n (advance w k evs hp).
Proof.
  intros (Hr & Hp & Hfit). unfold calm, advance. cbn.
  rewrite Hr, drop_nil. done.
Qed.

Lemma calm_grants n w k : calm n w -> grants k (replies w).
Proof. intros (Hr & _) j _. by rewrite Hr, lookup_nil. Qed.

Lemma create_world slot size w slot' w' :
  secure_memory_create (Some slot) size w = Some ((SECURE_SUCCESS, slot'), w') ->
  replies w' = drop 4 (replies w) /\ sc_pagesize w' = sc_pagesize w.
Proof.
  rewrite create_spec. cbv zeta.
  repeat match goal with
         | |- (if ?c then _ else _) = _ -> _ => destruct c
         end; try discriminate.
  by intros [= _ <-].
Qed.

Lemma create_calm n size w :
  calm n w -> 0 < size <= n ->
  exists h w1 bs,
    lseco_create size w = Some (Some h, w1) /\ calm n w1 /\ owned w w1 h size bs.
Proof.
  intros Hcalm Hsize. pose proof Hcalm as (Hr & Hp & Hfit).
  assert (Hwrap : SizeT.wrap (sc_pagesize w) = sc_pagesize w).
  { apply Z.mod_small. lia. }
  destruct (create_granted None size w) as (h & w1 & Hc);
    [lia | lia | by eapply calm_grants |].
  destruct (create_world _ _ _ _ _ Hc) as [Hr1 Hp1].
  pose proof Hc as Hf.
  apply create_frame in Hf as (m & d & b & Hreg & Hms & _ & _ & Hh0 & Hd0 & Hframe).
  exists h, w1, (blk_bytes b). split_and!.
  - rewrite lseco_create_spec, Hc.
    rewrite (proj2 (Z.eqb_neq size 0)) by lia. reflexivity.
  - unfold calm. rewrite Hr1, Hp1, Hr, drop_nil. done.
  - exists m, d, b. split_and!; try done.
    pose proof Hc as Hs2.
    apply create_success in Hs2 as (h' & m' & d' & b' & [= <-] & Hreg' & _ & Hmp' & _).
    destruct (region_unique _ _ _ _ _ _ _ _ Hreg Hreg') as (-> & _).
    rewrite Hwrap in Hmp'. rewrite <- Hms.
    apply backing_size_when_representable; lia.
Qed.

Lemma store_owned n w0 w h cap bs src len :
  calm n w -> owned w0 w h cap bs ->
  0 < len <= cap -> len <= Z.of_nat (length src) ->
  exists w1,
    lseco_store (Some h) (Some src) len w = Some (LSECO_SUCCESS, w1) /\
    calm n w1 /\
    owned w0 w1 h cap (take (Z.to_nat len) src ++ drop (Z.to_nat len) bs).
Proof.
  intros Hcalm (m & d & b & Hreg & Hms & Hcover & Hbs & Hh0 & Hd0 & Hframe) Hlen Hsrc.
  pose proof Hreg as [Hh Hd Hb Hpage Hblen].
  assert (Hfit : len <= Z.of_nat (length (blk_bytes b))) by lia.
  eexists. split_and!.
  - rewrite lseco_store_is_write.
    apply (write_granted h m d b); try done; [lia|lia|by eapply calm_grants].
  - by apply calm_advance.
  - exists m, d, (written src len b PROT_NONE). split_and!; try done.
    + apply (region_update _ _ _ _ b); [done|]. by apply written_length.
    + unfold written. cbn. by rewrite Hbs.
    + intros l Hl1 Hl2. cbn [advance heap]. rewrite lookup_insert_ne by done. auto.
Qed.

Lemma retrieve_owned n w0 w h cap bs dst len :
  calm n w -> owned w0 w h cap bs ->
  0 < len <= cap -> len <= Z.of_nat (length dst) ->
  exists w1,
    lseco_retrieve (Some h) (Some dst) len w
      = Some ((LSECO_SUCCESS,
               Some (take (Z.to_nat len) bs ++ drop (Z.to_nat len) dst)), w1) /\
    calm n w1 /\ owned w0 w1 h cap bs.
Proof.
  intros Hcalm (m & d & b & Hreg & Hms & Hcover & Hbs & Hh0 & Hd0 & Hframe) Hlen Hdst.
  pose proof Hreg as [Hh Hd Hb Hpage Hblen].
  eexists. split_and!.
  - rewrite lseco_retrieve_is_read.
    rewrite (read_granted h m d b); try done; [|lia|lia|by eapply calm_grants].
    unfold copied_out. by rewrite Hbs.
  - by apply calm_advance.
  - exists m, d, (reprotected b PROT_NONE). split_and!; try done.
    + by apply (region_update _ _ _ _ b).
    + intros l Hl1 Hl2. cbn [advance heap]. rewrite lookup_insert_ne by done. auto.
Qed.

Lemma oversized_owned w0 w h cap bs buf len :
  owned w0 w h cap bs -> cap < len ->
  lseco_store (Some h) (Some buf) len w = Some (LSECO_ERR_INVALID_SIZE, w) /\
  lseco_retrieve (Some h) (Some buf) len w
    = Some ((LSECO_ERR_INVALID_SIZE, Some buf), w).
Proof.
  intros (m & d & b & [Hh _ _ _ _] & Hms & _) Hlen.
  rewrite lseco_store_is_write, lseco_retrieve_is_read.
  rewrite (write_oversized h m), (read_oversized h m) by (done || lia). done.
Qed.

Lemma get_size_owned w0 w h cap bs :
  owned w0 w h cap bs -> lseco_get_size (Some h) w = Some (cap, w).
Proof.
  intros (m & d & b & [Hh _ _ _ _] & Hms & _).
  unfold lseco_get_size. cbn [is_null]. by rewrite (get_size_live _ _ _ Hh), Hms.
Qed.

Lemma destroy_owned n w0 w h cap bs :
  calm n w -> owned w0 w h cap bs ->
  exists w1, lseco_destroy (Some h) w = Some (tt, w1) /\ calm n w1 /\ heap w1 = heap w0.
Proof.
  intros Hcalm (m & d & b & Hreg & Hms & Hcover & Hbs & Hh0 & Hd0 & Hframe).
  eexists. split_and!.
  - unfold lseco_destroy, bind, ret. cbn [is_null].
    rewrite (destroy_region _ _ _ _ _ Hreg); [done|].
    destruct Hcalm as (-> & _). done.
  - by apply calm_advance.
  - cbn [advance heap]. apply map_eq. intros l.
    destruct (decide (l = h)) as [->|Hlh]; [by rewrite lookup_delete_eq|].
    rewrite lookup_delete_ne by done.
    destruct (decide (l = d)) as [->|Hld]; [by rewrite lookup_delete_eq|].
    rewrite lookup_delete_ne by done. auto.
Qed.

Lemma and_then_passes n t k : passes n t -> passes n k -> passes n (and_then t k).
Proof.
  intros Ht Hk w Hcalm.
  destruct (Ht w Hcalm) as (w1 & Ht1 & Hcalm1 & Hheap1).
  destruct (Hk w1 Hcalm1) as (w2 & Hk2 & Hcalm2 & Hheap2).
  exists w2. unfold and_then, bind. rewrite Ht1. split_and!; [done|done|congruence].
Qed.

Ltac run H :=
  unfold bind at 1; rewrite H; cbv beta iota zeta delta [default from_option id].

Lemma test_version_passes n : passes n test_version.
Proof. intros w Hcalm. exists w. by split_and!. Qed.

Lemma test_error_strings_passes n : passes n test_error_strings.
Proof. intros w Hcalm. exists w. by split_and!. Qed.

Lemma test_create_destroy_passes : passes 1024 test_create_destroy.
Proof.
  intros w Hcalm. unfold test_create_destroy.
  assert (H0 : lseco_create 0 w = Some (None, w)) by reflexivity.
  run H0. cbn [assert is_null].
  destruct (create_calm 1024 256 w Hcalm ltac:(lia)) as (h & w1 & bs & Hc & Hcalm1 & Hown).
  run Hc. cbn [assert is_null negb].
  run (get_size_owned _ _ _ _ _ Hown). cbn [assert Z.eqb Pos.eqb].
  destruct (destroy_owned _ _ _ _ _ _ Hcalm1 Hown) as (w2 & Hd & Hcalm2 & Hheap).
  run Hd.
  exists w2. by split_and!.
Qed.

Lemma test_size_limits_passes buffer :
  length buffer = 32%nat -> passes 1024 (test_size_limits buffer).
Proof.
  intros Hbuf w Hcalm. unfold test_size_limits.
  destruct (create_calm 1024 16 w Hcalm ltac:(lia)) as (h & w1 & bs & Hc & Hcalm1 & Hown).
  run Hc. cbn [assert is_null negb].
  destruct (oversized_owned _ _ _ _ _ (char_array 32 "This data is too large!") 32 Hown
              ltac:(lia)) as [Hs _].
  run Hs. cbn [assert Z.eqb Pos.eqb LSECO_ERR_INVALID_SIZE].
  destruct (oversized_owned _ _ _ _ _ buffer 32 Hown ltac:(lia)) as [_ Hr].
  run Hr. cbn [assert Z.eqb Pos.eqb LSECO_ERR_INVALID_SIZE].
  destruct (store_owned _ _ _ _ _ _ (literal "small") 6 Hcalm1 Hown
              ltac:(lia) ltac:(vm_compute; discriminate))
    as (w2 & Hs2 & Hcalm2 & Hown2).
  run Hs2. cbn [assert Z.eqb LSECO_SUCCESS].
  destruct (destroy_owned _ _ _ _ _ _ Hcalm2 Hown2) as (w3 & Hd & Hcalm3 & Hheap).
  run Hd.
  exists w3. by split_and!.
Qed.

Lemma test_store_retrieve_passes : passes 1024 test_store_retrieve.
Proof.
  intros w Hcalm. unfold test_store_retrieve.
  destruct (create_calm 1024 256 w Hcalm ltac:(lia)) as (h & w1 & bs & Hc & Hcalm1 & Hown).
  run Hc. cbn [assert is_null negb].
  assert (H1 : lseco_store None (Some (literal "test")) 4 w1
               = Some (LSECO_ERR_NULL_PTR, w1)) by reflexivity.
  run H1. cbn [assert Z.eqb Pos.eqb LSECO_ERR_NULL_PTR].
  assert (H2 : lseco_store (Some h) None 4 w1 = Some (LSECO_ERR_NULL_PTR, w1))
    by reflexivity.
  run H2. cbn [assert Z.eqb Pos.eqb LSECO_ERR_NULL_PTR].
  assert (H3 : lseco_store (Some h) (Some (literal "test")) 0 w1
               = Some (LSECO_ERR_INVALID_SIZE, w1)) by reflexivity.
  run H3. cbn [assert Z.eqb Pos.eqb LSECO_ERR_INVALID_SIZE].
  set (secret := literal "This is a secret password!").
  assert (Hlen : strlen secret = Some 26%nat) by reflexivity.
  assert (H4 : lift (strlen secret) w1 = Some (26%nat, w1)) by (by rewrite Hlen).
  run H4.
  destruct (store_owned _ _ _ _ _ _ secret (Z.of_nat 26 + 1) Hcalm1 Hown
              ltac:(lia) ltac:(vm_compute; discriminate))
    as (w2 & Hs & Hcalm2 & Hown2).
  run Hs. cbn [assert Z.eqb LSECO_SUCCESS].
  assert (H5 : lseco_retrieve None (Some (replicate 256 x00)) 256 w2
               = Some ((LSECO_ERR_NULL_PTR, Some (replicate 256 x00)), w2))
    by reflexivity.
  run H5. cbn [assert Z.eqb Pos.eqb LSECO_ERR_NULL_PTR default].
  assert (H6 : lseco_retrieve (Some h) None 256 w2
               = Some ((LSECO_ERR_NULL_PTR, None), w2)) by reflexivity.
  run H6. cbn [assert Z.eqb Pos.eqb LSECO_ERR_NULL_PTR].
  assert (H7 : lift (strlen secret) w2 = Some (26%nat, w2)) by (by rewrite Hlen).
  run H7.
  destruct (retrieve_owned _ _ _ _ _ _ (replicate 256 x00) (Z.of_nat 26 + 1)
              Hcalm2 Hown2 ltac:(lia) ltac:(vm_compute; discriminate))
    as (w3 & Hr & Hcalm3 & Hown3).
  run Hr. cbn [assert Z.eqb LSECO_SUCCESS default].
  assert (H8 : lift (strcmp
                 (take (Z.to_nat (Z.of_nat 26 + 1))
                    (take (Z.to_nat (Z.of_nat 26 + 1)) secret
                     ++ drop (Z.to_nat (Z.of_nat 26 + 1)) bs)
                  ++ drop (Z.to_nat (Z.of_nat 26 + 1)) (replicate 256 x00)) secret) w3
               = Some (0, w3)).
  { replace (Z.to_nat (Z.of_nat 26 + 1)) with 27%nat by lia.
    rewrite take_app_le by (vm_compute; lia).
    rewrite take_take, Nat.min_id.
    by rewrite (strcmp_prefix secret 26 _ Hlen). }
  run H8. cbn [assert Z.eqb].
  destruct (destroy_owned _ _ _ _ _ _ Hcalm3 Hown3) as (w4 & Hd & Hcalm4 & Hheap).
  run Hd.
  exists w4. by split_and!.
Qed.

(** One round of [test_multiple_operations] on an owned region. *)
Lemma store_retrieve_compare_owned n w0 w h cap bs data buffer k :
  calm n w -> owned w0 w h cap bs ->
  strlen data = Some k -> Z.of_nat k + 1 <= cap ->
  (k < length buffer)%nat ->
  exists w1 buffer' bs',
    store_retrieve_compare (Some h) data buffer w = Some (Some buffer', w1) /\
    calm n w1 /\ owned w0 w1 h cap bs' /\ length buffer' = length buffer.
Proof.
  intros Hcalm Hown Hk Hcap Hbuf.
  pose proof (strlen_bound _ _ Hk) as Hdata.
  unfold store_retrieve_compare.
  assert (H1 : forall w, lift (strlen data) w = Some (k, w))
    by (intros; by rewrite Hk).
  run (H1 w).
  destruct (store_owned _ _ _ _ _ _ data (Z.of_nat k + 1) Hcalm Hown
              ltac:(lia) ltac:(lia)) as (w1 & Hs & Hcalm1 & Hown1).
  run Hs. cbn [negb Z.eqb LSECO_SUCCESS].
  run (H1 w1).
  destruct (retrieve_owned _ _ _ _ _ _ buffer (Z.of_nat k + 1) Hcalm1 Hown1
              ltac:(lia) ltac:(lia)) as (w2 & Hr & Hcalm2 & Hown2).
  run Hr. cbn [negb Z.eqb LSECO_SUCCESS default].
  replace (Z.to_nat (Z.of_nat k + 1)) with (S k) by lia.
  assert (H2 : lift (strcmp (take (S k) (take (S k) data ++ drop (S k) bs)
                             ++ drop (S k) buffer) data) w2 = Some (0, w2)).
  { rewrite take_app_le by (rewrite length_take; lia).
    rewrite take_take, Nat.min_id.
    by rewrite (strcmp_prefix data k _ Hk). }
  run H2. cbn [negb Z.eqb].
  eexists _, _, _. split; [reflexivity|].
  split; [done|]. split; [exact Hown2|].
  rewrite length_app, length_take, length_drop.
  rewrite length_app, length_take, length_drop.
  destruct Hown as (m & d & b & [_ _ _ _ Hbl] & Hms & Hcov & Hbs & _).
  subst bs. lia.
Qed.

Lemma test_multiple_operations_passes buffer :
  length buffer = 1024%nat -> passes 1024 (test_multiple_operations buffer).
Proof.
  intros Hbuf w Hcalm. unfold test_multiple_operations.
  destruct (create_calm 1024 1024 w Hcalm ltac:(lia)) as (h & w1 & bs & Hc & Hcalm1 & Hown).
  run Hc. cbn [assert is_null negb].
  destruct (store_retrieve_compare_owned _ _ _ _ _ _ (literal "First secret") buffer 12
              Hcalm1 Hown eq_refl ltac:(lia) ltac:(lia))
    as (w2 & buffer2 & bs2 & H1 & Hcalm2 & Hown2 & Hlen2).
  run H1.
  destruct (store_retrieve_compare_owned _ _ _ _ _ _ (literal "Second secret is longer")
              buffer2 23 Hcalm2 Hown2 eq_refl ltac:(lia) ltac:(lia))
    as (w3 & buffer3 & bs3 & H2 & Hcalm3 & Hown3 & Hlen3).
  run H2.
  destruct (store_retrieve_compare_owned _ _ _ _ _ _ (literal "Third")
              buffer3 5 Hcalm3 Hown3 eq_refl ltac:(lia) ltac:(lia))
    as (w4 & buffer4 & bs4 & H3 & Hcalm4 & Hown4 & Hlen4).
  run H3.
  destruct (destroy_owned _ _ _ _ _ _ Hcalm4 Hown4) as (w5 & Hd & Hcalm5 & Hheap).
  run Hd.
  exists w5. by split_and!.
Qed.

Lemma test_binary_data_passes buffer :
  length buffer = 16%nat -> passes 1024 (test_binary_data buffer).
Proof.
  intros Hbuf w Hcalm. unfold test_binary_data.
  destruct (create_calm 1024 256 w Hcalm ltac:(lia)) as (h & w1 & bs & Hc & Hcalm1 & Hown).
  run Hc. cbn [assert is_null negb].
  destruct (store_owned _ _ _ _ _ _ binary_data 16 Hcalm1 Hown
              ltac:(lia) ltac:(vm_compute; discriminate))
    as (w2 & Hs & Hcalm2 & Hown2).
  run Hs. cbn [assert Z.eqb LSECO_SUCCESS].
  destruct (retrieve_owned _ _ _ _ _ _ buffer 16 Hcalm2 Hown2
              ltac:(lia) ltac:(lia)) as (w3 & Hr & Hcalm3 & Hown3).
  run Hr. cbn [assert Z.eqb LSECO_SUCCESS default].
  replace (take (Z.to_nat 16) (take (Z.to_nat 16) binary_data ++ drop (Z.to_nat 16) bs)
           ++ drop (Z.to_nat 16) buffer) with binary_data.
  2:{ change (Z.to_nat 16) with 16%nat.
      rewrite (drop_ge buffer) by lia. rewrite app_nil_r.
      rewrite take_app_le by (vm_compute; lia). reflexivity. }
  change (forallb _ (seq 0 16)) with true. cbn [assert].
  destruct (destroy_owned _ _ _ _ _ _ Hcalm3 Hown3) as (w4 & Hd & Hcalm4 & Hheap).
  run Hd.
  exists w4. by split_and!.
Qed.

(** X15.  The test suite of the repository passes.  On every platform that
    refuses nothing (with a page size that leaves room to round 1024 up),
    from any heap and whatever the uninitialised buffers of the tests hold,
    [main] reaches its end with every assertion of every test true, no call
    is undefined, and the heap at the end is the heap at the start. *)
Theorem test_suite_passes (w : world) (buffer32 buffer1024 buffer16 : list byte) :
  calm 1024 w ->
  length buffer32 = 32%nat -> length buffer1024 = 1024%nat ->
  length buffer16 = 16%nat ->
  exists w', main buffer32 buffer1024 buffer16 w = Some (true, w')
             /\ heap w' = heap w.
Proof.
  intros Hcalm H32 H1024 H16.
  assert (Hmain : passes 1024 (main buffer32 buffer1024 buffer16)).
  { unfold main.
    repeat (apply and_then_passes;
            [first [ apply test_version_passes | apply test_error_strings_passes
                   | apply test_create_destroy_passes | apply test_store_retrieve_passes
                   | by apply test_size_limits_passes
                   | by apply test_multiple_operations_passes ] |]).
    by apply test_binary_data_passes. }
  destruct (Hmain w Hcalm) as (w' & Hrun & _ & Hheap). eauto.
Qed.

Lemma test_suite_passes_witness :
  calm 1024 world256 /\
  exists w', main (replicate 32 xcc) (replicate 1024 xcc) (replicate 16 xcc) world256
             = Some (true, w')
             /\ heap w' = heap world256.
Proof.
  assert (Hcalm : calm 1024 world256).
  { split; [vm_compute; reflexivity|]. split; vm_compute; reflexivity. }
  split; [exact Hcalm|].
  apply (test_suite_passes world256 (replicate 32 xcc) (replicate 1024 xcc)
           (replicate 16 xcc) Hcalm); reflexivity.
Defined.

(** ** The sizes of the calls *)

(** X16.  Every call made for a region has the right extent.  The calls
    logged by a successful [secure_memory_create] and, on the region it
    made, by any [secure_memory_write], [secure_memory_read] or
    [secure_memory_destroy], whatever they return, are calls on that
    region's struct and block only; each [posix_memalign], [mlock],
    [madvise], [mprotect], [munlock] and zeroing among them is over the
    whole backing size computed from the struct, and each copy is of a
    non-zero length within the capacity. *)
Theorem calls_fit_the_region (w w' : world) (h d : loc) (m : secure_memory_t)
    (b : block) :
  region w h m d b ->
  (forall slot size w0,
     secure_memory_create (Some slot) size w0
       = Some ((SECURE_SUCCESS, Some (Some h)), w) ->
     Forall (event_fits h d m) (new_events w0 w)) /\
  (forall src len code,
     secure_memory_write (Some h) (Some src) len w = Some (code, w') ->
     Forall (event_fits h d m) (new_events w w')) /\
  (forall dst len code dst',
     secure_memory_read (Some h) (Some dst) len w = Some ((code, dst'), w') ->
     Forall (event_fits h d m) (new_events w w')) /\
  (forall slot',
     secure_memory_destroy (Some (Some h)) w = Some (slot', w') ->
     Forall (event_fits h d m) (new_events w w')).
Proof.
  intros Hreg. split_and!.
  - intros slot size w0 Hc.
    pose proof Hc as Hs.
    apply create_success in Hs
      as (h' & m' & d' & b' & [= <-] & Hreg' & Hms & Hmp & _).
    destruct (region_unique _ _ _ _ _ _ _ _ Hreg Hreg') as (-> & -> & ->).
    revert Hc. rewrite create_spec. cbv zeta.
    repeat match goal with
           | |- (if ?c then _ else _) = _ -> _ => destruct c
           end; try discriminate.
    intros [= Hh Hw]. rewrite <- Hw, new_events_advance.
    destruct Hreg as [Hs Hd _ _ _]. rewrite <- Hw in Hs. cbn [advance heap] in Hs.
    set (l1 := fresh_addr (heap w0)) in *.
    set (l2 := fresh_addr (<[l1 := _]> (heap w0))) in *.
    assert (Hl2 : heap w0 !! l2 = None /\ l1 <> l2).
    { eapply lookup_insert_None. subst l2. apply fresh_addr_free. }
    destruct Hl2 as [_ Hne]. subst h.
    rewrite lookup_insert_ne, lookup_insert_eq in Hs by done.
    injection Hs as <-. cbn in Hd. injection Hd as <-.
    unfold backing_size. cbn [mem_size mem_page_size].
    repeat constructor.
  - intros src len code Hw.
    destruct (write_cases _ _ _ _ _ _ _ _ _ Hreg Hw)
      as [(_ & _ & ->) | [(_ & _ & ->)
          | (? & ? & _ & _ & _ & [(_ & _ & ->) | (_ & _ & ->)])]];
      rewrite ?new_events_refl, ?new_events_advance;
      repeat constructor; done.
  - intros dst len code dst' Hr.
    destruct (read_cases _ _ _ _ _ _ _ _ _ _ Hreg Hr)
      as [(_ & _ & _ & ->) | [(_ & _ & _ & ->)
          | (? & ? & _ & _ & _ & _ & [(_ & _ & ->) | (_ & _ & ->)])]];
      rewrite ?new_events_refl, ?new_events_advance;
      repeat constructor; done.
  - intros slot' Hdes.
    destruct (destroy_returns _ _ _ _ _ _ _ Hreg Hdes) as (_ & _ & ->).
    rewrite new_events_advance. unfold destroy_events.
    repeat (constructor; [cbn; auto|]). constructor.
Qed.

Lemma calls_fit_the_region_witness :
  let m := mkMem (Some 2%positive) 256 4096 in
  let w' := after (secure_memory_write (Some 1%positive) (Some binary_data) 16) world256 in
  region world256 1%positive m 2%positive (mkBlock (replicate 4096 xaa) PROT_NONE true) /\
  secure_memory_create (Some None) 256 (boot [])
    = Some ((SECURE_SUCCESS, Some (Some 1%positive)), world256) /\
  Forall (event_fits 1%positive 2%positive m) (new_events (boot []) world256) /\
  secure_memory_write (Some 1%positive) (Some binary_data) 16 world256
    = Some (SECURE_SUCCESS, w') /\
  Forall (event_fits 1%positive 2%positive m) (new_events world256 w').
Proof.
  intros m w'.
  assert (Hreg : region world256 1%positive m 2%positive
                   (mkBlock (replicate 4096 xaa) PROT_NONE true)).
  { constructor; [vm_compute; reflexivity | reflexivity | vm_compute; reflexivity
                 | discriminate | vm_compute; reflexivity]. }
  assert (Hc : secure_memory_create (Some None) 256 (boot [])
               = Some ((SECURE_SUCCESS, Some (Some 1%positive)), world256))
    by (vm_compute; reflexivity).
  assert (Hw : secure_memory_write (Some 1%positive) (Some binary_data) 16 world256
               = Some (SECURE_SUCCESS, w')) by (vm_compute; reflexivity).
  destruct (calls_fit_the_region world256 w' _ _ _ _ Hreg) as (Hcreate & Hwrite & _).
  split; [exact Hreg|]. split; [exact Hc|].
  split; [exact (Hcreate _ _ _ Hc)|]. split; [exact Hw|].
  exact (Hwrite _ _ _ Hw).
Defined.
